(** * Local search strategies of a learned index (include/rmi/util/search.hpp)

    A shallow embedding of the ten search functors of [search.hpp] and of the
    helper [bsr], together with the properties of the specification that
    concern them.

    Iterators are positions ([Z]) in the storage of the sorted array; the
    storage and the module-level variable [MINUS_ONE] form the program state.
    Every functor is a computation in a small monad that threads the state,
    records the positions it dereferences, and distinguishes a returned value
    from undefined behaviour (a dereference outside the storage, an undefined
    shift, [__builtin_ctz(0)]) and from an exhausted iteration budget. *)

From Stdlib Require Import ZArith List Bool Lia.
Import ListNotations.
Local Open Scope Z_scope.

(* ================================================================== *)
(** * Machine integers *)

(** [size_t]: 64 bits, unsigned, wraps around. *)
Definition size_t (x : Z) : Z := x mod 2 ^ 64.

(** [intptr_t]: 64 bits, two's complement. *)
Definition intptr_t (x : Z) : Z :=
  let u := x mod 2 ^ 64 in if u <? 2 ^ 63 then u else u - 2 ^ 64.

(* ================================================================== *)
(** * Program state and the monad of computations *)

(** The storage the iterators point into, and the global
    [intptr_t MINUS_ONE = -1;] of the header. *)
Record State : Type := mkState { heap : list Z; MINUS_ONE : Z }.

(** The state in which the program starts: [MINUS_ONE] holds its
    initialiser. *)
Definition init_state (a : list Z) : State := mkState a (-1).

Inductive Res (A : Type) : Type :=
| Ok (a : A)      (* the call returned [a] *)
| UB              (* undefined behaviour *)
| OutOfFuel.      (* the iteration budget of a loop ran out *)
Arguments Ok {A} a.
Arguments UB {A}.
Arguments OutOfFuel {A}.

(** What a computation leaves behind: its result, the state after it, and
    the positions it dereferenced, in order. *)
Record Run (A : Type) : Type :=
  mkRun { result : Res A; final : State; reads : list Z }.
Arguments mkRun {A} result final reads.
Arguments result {A} r.
Arguments final {A} r.
Arguments reads {A} r.

Definition M (A : Type) : Type := State -> Run A.

Definition ret {A} (a : A) : M A := fun s => mkRun (Ok a) s [].

Definition undefined {A} : M A := fun s => mkRun UB s [].

Definition out_of_fuel {A} : M A := fun s => mkRun OutOfFuel s [].

Definition bind {A B} (m : M A) (f : A -> M B) : M B := fun s =>
  let r := m s in
  match result r with
  | Ok a => let r' := f a (final r) in
            mkRun (result r') (final r') (reads r ++ reads r')
  | UB => mkRun UB (final r) (reads r)
  | OutOfFuel => mkRun OutOfFuel (final r) (reads r)
  end.

Notation "x <- m ;; k" := (bind m (fun x => k))
  (at level 61, m at next level, right associativity).
Notation "' pat <- m ;; k" := (bind m (fun x => match x with pat => k end))
  (at level 61, pat pattern, m at next level, right associativity).

(** Dereference of an iterator: reads the element at position [it] of the
    storage. *)
Definition deref (it : Z) : M Z := fun s =>
  mkRun (if it <? 0 then UB
         else match nth_error (heap s) (Z.to_nat it) with
              | Some v => Ok v
              | None => UB
              end)
        s [it].

(** Reads the global [MINUS_ONE]. *)
Definition read_MINUS_ONE : M Z := fun s => mkRun (Ok (MINUS_ONE s)) s [].

(** A partial pure function used inside a computation. *)
Definition lift {A} (o : option A) : M A :=
  match o with Some a => ret a | None => out_of_fuel end.

(* ================================================================== *)
(** * The scalar strategies *)

(** ** [LinearSearch] *)

(** [for (; runner != last; ++runner) if ( *runner >= value) return runner;
     return last;] *)
Fixpoint LinearSearch_loop (fuel : nat) (runner last value : Z) : M Z :=
  match fuel with
  | O => out_of_fuel
  | S fuel' =>
      if runner =? last then ret last
      else
        x <- deref runner ;;
        if x >=? value then ret runner
        else LinearSearch_loop fuel' (runner + 1) last value
  end.

Definition LinearSearch (first last pred value : Z) : M Z :=
  LinearSearch_loop (S (Z.to_nat (last - first))) first last value.

(** ** [ModelBiasedLinearSearch] *)

(** [for (; runner < last; ++runner) if ( *runner >= value) return runner;
     return last;] *)
Fixpoint scan_right (fuel : nat) (runner last value : Z) : M Z :=
  match fuel with
  | O => out_of_fuel
  | S fuel' =>
      if runner <? last then
        x <- deref runner ;;
        if x >=? value then ret runner
        else scan_right fuel' (runner + 1) last value
      else ret last
  end.

(** [for (; runner >= first; --runner) if ( *runner < value) return ++runner;
     return first;] *)
Fixpoint scan_left (fuel : nat) (runner first value : Z) : M Z :=
  match fuel with
  | O => out_of_fuel
  | S fuel' =>
      if runner >=? first then
        x <- deref runner ;;
        if x <? value then ret (runner + 1)
        else scan_left fuel' (runner - 1) first value
      else ret first
  end.

Definition ModelBiasedLinearSearch (first last pred value : Z) : M Z :=
  let runner := pred in
  x <- deref runner ;;
  if x <? value then
    scan_right (S (Z.to_nat (last - runner))) runner last value
  else
    scan_left (S (Z.to_nat (runner - first + 1))) runner first value.

(** ** [std::lower_bound]

    The algorithm of the C++ standard library that the header calls:
    bisection on the length of the remaining interval. *)
Fixpoint lower_bound_loop (fuel : nat) (first len value : Z) : M Z :=
  match fuel with
  | O => out_of_fuel
  | S fuel' =>
      if len >? 0 then
        let half := Z.shiftr len 1 in
        let middle := first + half in
        x <- deref middle ;;
        if x <? value then
          lower_bound_loop fuel' (middle + 1) (len - half - 1) value
        else
          lower_bound_loop fuel' first half value
      else ret first
  end.

Definition std_lower_bound (first last value : Z) : M Z :=
  lower_bound_loop (S (Z.to_nat (last - first))) first (last - first) value.

(** ** [BinarySearch] and [ModelBiasedBinarySearch] *)

Definition BinarySearch (first last pred value : Z) : M Z :=
  std_lower_bound first last value.

Definition ModelBiasedBinarySearch (first last pred value : Z) : M Z :=
  x <- deref pred ;;
  if x <? value then std_lower_bound pred last value
  else std_lower_bound first pred value.

(** ** [ExponentialSearch] and [ModelBiasedExponentialSearch] *)

(** [while (curr < last and *curr < value)
       { bound *= 2; prev = curr; curr += bound; }]
    The loop returns [bound], [prev] and [curr] as it leaves them. *)
Fixpoint doubling_right (fuel : nat) (bound prev curr last value : Z)
  : M (Z * Z * Z) :=
  match fuel with
  | O => out_of_fuel
  | S fuel' =>
      if curr <? last then
        x <- deref curr ;;
        if x <? value then
          let bound' := size_t (bound * 2) in
          doubling_right fuel' bound' curr (curr + bound') last value
        else ret (bound, prev, curr)
      else ret (bound, prev, curr)
  end.

(** [while (curr > first and *curr >= value)
       { bound *= 2; prev = curr; curr -= bound; }] *)
Fixpoint doubling_left (fuel : nat) (bound prev curr first value : Z)
  : M (Z * Z * Z) :=
  match fuel with
  | O => out_of_fuel
  | S fuel' =>
      if curr >? first then
        x <- deref curr ;;
        if x >=? value then
          let bound' := size_t (bound * 2) in
          doubling_left fuel' bound' curr (curr - bound') first value
        else ret (bound, prev, curr)
      else ret (bound, prev, curr)
  end.

Definition ExponentialSearch (first last pred value : Z) : M Z :=
  x <- deref first ;;
  if x >=? value then ret first
  else
    let bound := 1 in
    let prev := first in
    let curr := prev + bound in
    '(_, prev, curr) <-
      doubling_right (S (Z.to_nat (last - first))) bound prev curr last value ;;
    std_lower_bound prev (Z.min (curr + 1) last) value.

Definition ModelBiasedExponentialSearch (first last pred value : Z) : M Z :=
  x <- deref pred ;;
  if x <? value then
    let bound := 1 in
    let prev := pred in
    let curr := prev + bound in
    '(_, prev, curr) <-
      doubling_right (S (Z.to_nat (last - pred))) bound prev curr last value ;;
    std_lower_bound prev (Z.min (curr + 1) last) value
  else
    let bound := 1 in
    let prev := pred in
    let curr := prev - bound in
    '(_, prev, curr) <-
      doubling_left (S (Z.to_nat (pred - first))) bound prev curr first value ;;
    std_lower_bound (Z.max first curr) prev value.

(* ================================================================== *)
(** * The vectorised strategies *)

(** The elements are 64-bit integers, the width that the comparison
    [_mm512_cmplt_epi64_mask] and the block length 8 assume.

    A 512-bit register, as its eight 64-bit lanes, lowest lane first; each
    lane is kept as its unsigned bit pattern. *)
Definition m512i : Type := list Z.

(** The value of a 64-bit lane read as a signed integer. *)
Definition epi64 (lane : Z) : Z := intptr_t lane.

(** [_mm512_set1_epi32(a)]: [a] is converted to a 32-bit [int] and copied
    into all sixteen 32-bit lanes; every 64-bit lane therefore holds the
    32-bit pattern twice. *)
Definition mm512_set1_epi32 (a : Z) : m512i :=
  let dword := a mod 2 ^ 32 in
  repeat (dword + 2 ^ 32 * dword) 8.

(** [_mm512_loadu_si512(p)]: reads the eight 64-bit elements at [p], ...,
    [p + 7]. *)
Fixpoint load_lanes (k : nat) (p : Z) : M m512i :=
  match k with
  | O => ret []
  | S k' =>
      x <- deref p ;;
      v <- load_lanes k' (p + 1) ;;
      ret (size_t x :: v)
  end.

Definition mm512_loadu_si512 (p : Z) : M m512i := load_lanes 8 p.

(** [_mm512_cmplt_epi64_mask(a, b)]: bit [j] of the mask is set when lane [j]
    of [a] is less than lane [j] of [b], both read as signed integers. *)
Fixpoint cmplt_mask (a b : m512i) (bit : Z) : Z :=
  match a, b with
  | x :: a', y :: b' =>
      (if epi64 x <? epi64 y then bit else 0) + cmplt_mask a' b' (2 * bit)
  | _, _ => 0
  end.

Definition mm512_cmplt_epi64_mask (a b : m512i) : Z := cmplt_mask a b 1.

(** [__builtin_ctz(m)]: the number of trailing zero bits; undefined at 0. *)
Fixpoint ctz_pos (p : positive) : Z :=
  match p with
  | xO q => 1 + ctz_pos q
  | _ => 0
  end.

Definition builtin_ctz (m : Z) : M Z :=
  match m with
  | Zpos p => ret (ctz_pos p)
  | _ => undefined
  end.

(** The block loop shared, textually, by [LinearSearch_SIMD] and by both
    branches of [ModelBiasedLinearSearch_SIMD]:
    [for (size_t i = 0; i < n; i += step) {
       vec = _mm512_loadu_si512(&data[i]);
       cmp_mask = _mm512_cmplt_epi64_mask(vec, values);
       if (cmp_mask != 0) return first + i + __builtin_ctz(cmp_mask);
     }
     return last;] *)
Fixpoint simd_loop (fuel : nat) (data : Z) (values : m512i) (i n : Z)
                   (first last : Z) : M Z :=
  match fuel with
  | O => out_of_fuel
  | S fuel' =>
      if i <? n then
        vec <- mm512_loadu_si512 (data + i) ;;
        let cmp_mask := mm512_cmplt_epi64_mask vec values in
        if negb (cmp_mask =? 0) then
          index <- builtin_ctz cmp_mask ;;
          ret (first + i + index)
        else
          let step := 8 in
          simd_loop fuel' data values (size_t (i + step)) n first last
      else ret last
  end.

Definition LinearSearch_SIMD (first last pred value : Z) : M Z :=
  let data := first in
  let values := mm512_set1_epi32 value in
  let n := size_t (last - first) in
  simd_loop (S (Z.to_nat n)) data values 0 n first last.

Definition ModelBiasedLinearSearch_SIMD (first last pred value : Z) : M Z :=
  let runner := pred in
  x <- deref runner ;;
  if x <? value then
    let data := runner in
    let values := mm512_set1_epi32 value in
    let n := size_t (last - runner) in
    simd_loop (S (Z.to_nat n)) data values 0 n first last
  else
    let data := first in
    let values := mm512_set1_epi32 value in
    let n := size_t (runner - first) in
    simd_loop (S (Z.to_nat n)) data values 0 n first last.

(* ================================================================== *)
(** * The branchless strategies *)

(** [while (x) { x >>= 1; ++ret; }] *)
Fixpoint bsr_loop (fuel : nat) (x ret : Z) : option Z :=
  match fuel with
  | O => None
  | S fuel' =>
      if x =? 0 then Some ret
      else bsr_loop fuel' (Z.shiftr x 1) (ret + 1)
  end.

(** [bsr(size_t x)]: a [size_t] has 64 bits, so 65 tests of [x] suffice. *)
Definition bsr (x : Z) : option Z := bsr_loop 65 x (-1).

(** [intptr_t(a) << count]: undefined unless [0 <= count < 64]. *)
Definition shl (a count : Z) : M Z :=
  if (count <? 0) || (64 <=? count) then undefined
  else ret (intptr_t (Z.shiftl a count)).

(** The descent shared, textually, by [BinarySearch_Branchless] and by both
    branches of [ModelBiasedBinarySearch_Branchless]:
    [while (step > 0) {
       pos = ( *(first + step) < value ? pos + step : pos);
       step >>= 1;
     }] *)
Fixpoint descent (fuel : nat) (first step pos value : Z) : M Z :=
  match fuel with
  | O => out_of_fuel
  | S fuel' =>
      if step >? 0 then
        x <- deref (first + step) ;;
        let pos' := if x <? value then intptr_t (pos + step) else pos in
        descent fuel' first (Z.shiftr step 1) pos' value
      else ret pos
  end.

(** The body common to the three places: [n] is the length of the range the
    caller chose, the probes are based at [first]. *)
Definition branchless_body (first n value : Z) : M Z :=
  pos <- read_MINUS_ONE ;;
  logstep <- lift (bsr n) ;;
  step <- shl 1 logstep ;;
  pos <- descent 65 first step pos value ;;
  ret (first + (pos + 1)).

Definition BinarySearch_Branchless (first last pred value : Z) : M Z :=
  let n := size_t (last - first) in
  branchless_body first n value.

Definition ModelBiasedBinarySearch_Branchless (first last pred value : Z)
  : M Z :=
  x <- deref pred ;;
  if x <? value then
    let n := size_t (last - pred) in
    branchless_body first n value
  else
    let n := size_t (pred - first) in
    branchless_body first n value.

(* ================================================================== *)
(** * The family of strategies *)

Inductive Strategy : Type :=
| Linear | ModelBiasedLinear
| Binary | ModelBiasedBinary
| Exponential | ModelBiasedExponential
| LinearSIMD | ModelBiasedLinearSIMD
| BinaryBranchless | ModelBiasedBinaryBranchless.

Definition all_strategies : list Strategy :=
  [Linear; ModelBiasedLinear; Binary; ModelBiasedBinary; Exponential;
   ModelBiasedExponential; LinearSIMD; ModelBiasedLinearSIMD;
   BinaryBranchless; ModelBiasedBinaryBranchless].

Definition model_biased : list Strategy :=
  [ModelBiasedLinear; ModelBiasedBinary; ModelBiasedExponential;
   ModelBiasedLinearSIMD; ModelBiasedBinaryBranchless].

(** [operator()(first, last, pred, value)] of the chosen functor. *)
Definition locate (st : Strategy) : Z -> Z -> Z -> Z -> M Z :=
  match st with
  | Linear => LinearSearch
  | ModelBiasedLinear => ModelBiasedLinearSearch
  | Binary => BinarySearch
  | ModelBiasedBinary => ModelBiasedBinarySearch
  | Exponential => ExponentialSearch
  | ModelBiasedExponential => ModelBiasedExponentialSearch
  | LinearSIMD => LinearSearch_SIMD
  | ModelBiasedLinearSIMD => ModelBiasedLinearSearch_SIMD
  | BinaryBranchless => BinarySearch_Branchless
  | ModelBiasedBinaryBranchless => ModelBiasedBinarySearch_Branchless
  end.

(* ================================================================== *)
(** * Specification vocabulary *)

(** The element at position [i] of the storage (0 outside it). *)
Definition elt (s : State) (i : Z) : Z := nth (Z.to_nat i) (heap s) 0.

(** The elements of the range [[first, last)]. *)
Definition range (s : State) (first last : Z) : list Z :=
  firstn (Z.to_nat (last - first)) (skipn (Z.to_nat first) (heap s)).

(** [[first, last)] is a range of the storage, and the storage is an object
    of the C++ abstract machine: its size is below [2^63]. *)
Definition valid_range (s : State) (first last : Z) : bool :=
  (0 <=? first) && (first <=? last)
  && (last <=? Z.of_nat (length (heap s)))
  && (Z.of_nat (length (heap s)) <? 2 ^ 63).

(** Ascending order. *)
Fixpoint sorted (l : list Z) : bool :=
  match l with
  | x :: t => match t with
              | y :: _ => (x <=? y) && sorted t
              | [] => true
              end
  | [] => true
  end.

(** The reference exhaustive linear scan: the index of the first element
    that is not less than [value], or the length when there is none. *)
Fixpoint reference_scan (l : list Z) (value : Z) : Z :=
  match l with
  | [] => 0
  | x :: t => if x >=? value then 0 else 1 + reference_scan t value
  end.

Definition lower_bound_ref (s : State) (first last value : Z) : Z :=
  first + reference_scan (range s first last) value.

(** [r] is the first position of [[first, last)] whose element is not less
    than [value], or [last] when there is none. *)
Definition first_not_less (s : State) (first last value r : Z) : Prop :=
  first <= r <= last
  /\ (forall i, first <= i < r -> elt s i < value)
  /\ (r < last -> value <= elt s r).

(** [r] is one past the last position of [[first, last)] whose element is
    less than [value], or [first] when no element is less. *)
Definition one_past_last_less (s : State) (first last value r : Z) : Prop :=
  first <= r <= last
  /\ (first < r -> elt s (r - 1) < value)
  /\ (forall i, r <= i < last -> value <= elt s i).

(** The positions [a], [a + 1], ... ([n] of them) and [a], [a - 1], ... *)
Fixpoint upto (a : Z) (n : nat) : list Z :=
  match n with
  | O => []
  | S k => a :: upto (a + 1) k
  end.

Fixpoint downto (a : Z) (n : nat) : list Z :=
  match n with
  | O => []
  | S k => a :: downto (a - 1) k
  end.

(** A computation that leaves the state as it found it. *)
Definition preserves {A} (m : M A) : Prop := forall s, final (m s) = s.

(** Position [i] lies inside the storage. *)
Definition in_storage (s : State) (i : Z) : Prop :=
  0 <= i < Z.of_nat (length (heap s)).

(** The probe of the doubling loops after [k] doublings away from [base]. *)
Definition probe_right (base k : Z) : Z := base + 2 ^ (k + 1) - 1.

Definition probe_left (base k : Z) : Z := base - (2 ^ (k + 1) - 1).

(** The [m] probes of the doubling to the right from the [k]-th on. *)
Fixpoint probes_right (base k : Z) (m : nat) : list Z :=
  match m with
  | O => []
  | S m' => probe_right base k :: probes_right base (k + 1) m'
  end.

(** The functors written without vector instructions and with branches. *)
Definition scalar_strategies : list Strategy :=
  [Linear; ModelBiasedLinear; Binary; ModelBiasedBinary; Exponential;
   ModelBiasedExponential].

(* ================================================================== *)
(** * The scenarios of the specification *)

Definition scenario : State := init_state [1; 3; 3; 5; 8; 13; 21].

(** The same sequence followed by one more word of storage. *)
Definition scenario_padded : State := init_state [1; 3; 3; 5; 8; 13; 21; 0].

Definition eight : State := init_state [1; 3; 3; 5; 8; 13; 21; 34].

Definition one_to_seven : State := init_state [1; 2; 3; 4; 5; 6; 7].

(** Two blocks of eight elements. *)
Definition sixteen : State :=
  init_state [1; 3; 3; 5; 8; 13; 21; 34;
              55; 89; 144; 233; 377; 610; 987; 1597].

(** [st] returns [r], whatever position of [preds] is predicted. *)
Definition returns_at (st : Strategy) (s : State) (first last : Z)
           (preds : list Z) (value r : Z) : bool :=
  forallb (fun pred =>
             match result (locate st first last pred value s) with
             | Ok x => x =? r
             | _ => false
             end) preds.

Definition positions : list Z := [0; 1; 2; 3; 4; 5; 6].

(* ================================================================== *)
(** * Vocabulary of the further properties *)

(** Every position of [l] lies in [[lo, hi)]. *)
Definition within (lo hi : Z) (l : list Z) : Prop :=
  Forall (fun p => lo <= p < hi) l.

(** The sum of the powers of two [2^j], [j <= k], whose element at offset
    [2^j] from [first] is less than [value]. *)
Fixpoint power_sum (s : State) (first value : Z) (k : nat) : Z :=
  (if elt s (first + 2 ^ Z.of_nat k) <? value then 2 ^ Z.of_nat k else 0)
  + match k with
    | O => 0
    | S k' => power_sum s first value k'
    end.

(** The positions [first + 2^k], [first + 2^(k-1)], ..., [first + 1]. *)
Fixpoint power_probes (first : Z) (k : nat) : list Z :=
  (first + 2 ^ Z.of_nat k)
  :: match k with
     | O => []
     | S k' => power_probes first k'
     end.

(** The 64-bit pattern that [_mm512_set1_epi32(value)] puts in every
    64-bit lane. *)
Definition broadcast (value : Z) : Z :=
  let dword := value mod 2 ^ 32 in dword + 2 ^ 32 * dword.

(** The index of the first element of [l] that, as a signed 64-bit lane, is
    less than the lane [q]. *)
Fixpoint find_less (q : Z) (l : list Z) : option Z :=
  match l with
  | [] => None
  | x :: t =>
      if epi64 (size_t x) <? epi64 q then Some 0
      else match find_less q t with
           | Some j => Some (1 + j)
           | None => None
           end
  end.

(* ================================================================== *)
(** * Laws of the monad *)

Ltac zbool :=
  repeat match goal with
  | H : (_ <? _) = true |- _ => apply Z.ltb_lt in H
  | H : (_ <? _) = false |- _ => apply Z.ltb_ge in H
  | H : (_ <=? _) = true |- _ => apply Z.leb_le in H
  | H : (_ <=? _) = false |- _ => apply Z.leb_gt in H
  | H : (_ >=? _) = _ |- _ => rewrite Z.geb_leb in H
  | H : (_ >? _) = _ |- _ => rewrite Z.gtb_ltb in H
  | H : (_ =? _) = true |- _ => apply Z.eqb_eq in H
  | H : (_ =? _) = false |- _ => apply Z.eqb_neq in H
  | H : _ && _ = true |- _ => apply andb_prop in H; destruct H
  end.

Lemma preserves_ret {A} (a : A) : preserves (ret a).
Proof. intro s. reflexivity. Qed.

Lemma preserves_undefined {A} : preserves (@undefined A).
Proof. intro s. reflexivity. Qed.

Lemma preserves_out_of_fuel {A} : preserves (@out_of_fuel A).
Proof. intro s. reflexivity. Qed.

Lemma preserves_deref (it : Z) : preserves (deref it).
Proof. intro s. reflexivity. Qed.

Lemma preserves_read_MINUS_ONE : preserves read_MINUS_ONE.
Proof. intro s. reflexivity. Qed.

Lemma preserves_lift {A} (o : option A) : preserves (lift o).
Proof. destruct o; intro s; reflexivity. Qed.

Lemma preserves_bind {A B} (m : M A) (f : A -> M B) :
  preserves m -> (forall a, preserves (f a)) -> preserves (bind m f).
Proof.
  intros Hm Hf s. unfold bind.
  destruct (result (m s)) as [a| |]; cbn; rewrite ?Hm; auto.
  apply Hf.
Qed.

Create HintDb frame.
#[local] Hint Resolve preserves_ret preserves_undefined preserves_out_of_fuel
  preserves_deref preserves_read_MINUS_ONE preserves_lift : frame.

(** Splits a computation along its binds and conditionals. *)
Ltac frame :=
  repeat first
    [ solve [auto with frame]
    | apply preserves_bind; [ | intro ]
    | match goal with
      | |- preserves (if ?b then _ else _) => destruct b
      | |- preserves (match ?x with (_, _) => _ end) => destruct x
      | |- preserves (match ?x with Zpos _ => _ | _ => _ end) => destruct x
      end ].

Lemma result_bind {A B} (m : M A) (f : A -> M B) (s : State) (a : A) :
  result (m s) = Ok a -> final (m s) = s ->
  result (bind m f s) = result (f a s).
Proof. intros Hr Hf. unfold bind. rewrite Hr, Hf. reflexivity. Qed.

Lemma reads_bind {A B} (m : M A) (f : A -> M B) (s : State) (a : A) :
  result (m s) = Ok a -> final (m s) = s ->
  reads (bind m f s) = reads (m s) ++ reads (f a s).
Proof. intros Hr Hf. unfold bind. rewrite Hr, Hf. reflexivity. Qed.

(** ** Reading inside the storage *)

Lemma deref_in (s : State) (i : Z) :
  in_storage s i -> deref i s = mkRun (Ok (elt s i)) s [i].
Proof.
  intros [H0 H1]. unfold deref, elt.
  destruct (i <? 0) eqn:E; zbool; [lia|].
  rewrite (nth_error_nth' (heap s) 0) by lia. reflexivity.
Qed.

Lemma result_bind_deref {B} (s : State) (i : Z) (f : Z -> M B) :
  in_storage s i ->
  result (bind (deref i) f s) = result (f (elt s i) s).
Proof.
  intro H. apply result_bind; rewrite (deref_in s i H); reflexivity.
Qed.

Lemma reads_bind_deref {B} (s : State) (i : Z) (f : Z -> M B) :
  in_storage s i ->
  reads (bind (deref i) f s) = i :: reads (f (elt s i) s).
Proof.
  intro H. rewrite (reads_bind _ _ s (elt s i));
    rewrite (deref_in s i H); reflexivity.
Qed.

Lemma valid_range_bounds (s : State) (first last : Z) :
  valid_range s first last = true ->
  0 <= first <= last /\ last <= Z.of_nat (length (heap s))
  /\ Z.of_nat (length (heap s)) < 2 ^ 63.
Proof. unfold valid_range. intro H. zbool. lia. Qed.

Lemma valid_range_in (s : State) (first last i : Z) :
  valid_range s first last = true -> first <= i < last -> in_storage s i.
Proof.
  intros H Hi. apply valid_range_bounds in H. unfold in_storage. lia.
Qed.

(** ** The range as a list *)

Lemma range_length (s : State) (first last : Z) :
  valid_range s first last = true ->
  Z.of_nat (length (range s first last)) = last - first.
Proof.
  intro H. apply valid_range_bounds in H. unfold range.
  rewrite length_firstn, length_skipn. lia.
Qed.

Lemma range_nth (s : State) (first last : Z) (k : nat) :
  valid_range s first last = true -> Z.of_nat k < last - first ->
  nth k (range s first last) 0 = elt s (first + Z.of_nat k).
Proof.
  intros H Hk. apply valid_range_bounds in H. unfold range, elt.
  rewrite nth_firstn.
  replace (k <? Z.to_nat (last - first))%nat with true
    by (symmetry; apply Nat.ltb_lt; lia).
  rewrite nth_skipn. f_equal. lia.
Qed.

Lemma sorted_nth (l : list Z) :
  sorted l = true ->
  forall i j : nat, (i <= j < length l)%nat -> nth i l 0 <= nth j l 0.
Proof.
  induction l as [|x t IH]; intros Hs i j Hij; [cbn in Hij; lia|].
  assert (Ht : sorted t = true).
  { cbn in Hs. destruct t; [reflexivity|]. zbool. assumption. }
  assert (Hx : forall k, (k < length t)%nat -> x <= nth k t 0).
  { intros k Hk. destruct t as [|y t']; [cbn in Hk; lia|].
    cbn [sorted] in Hs. zbool.
    pose proof (IH Ht 0%nat k ltac:(lia)) as IH0.
    change (nth 0 (y :: t') 0) with y in IH0. lia. }
  destruct i, j; cbn [nth]; cbn [length] in Hij; try lia.
  - apply Hx. lia.
  - apply IH; [assumption|lia].
Qed.

Lemma sorted_range (s : State) (first last : Z) :
  valid_range s first last = true ->
  sorted (range s first last) = true ->
  forall i j, first <= i -> i <= j -> j < last -> elt s i <= elt s j.
Proof.
  intros Hv Hs i j Hi Hij Hj.
  pose proof (sorted_nth _ Hs (Z.to_nat (i - first)) (Z.to_nat (j - first)))
    as H.
  pose proof (range_length s first last Hv) as Hl.
  rewrite !range_nth in H by (assumption || lia).
  replace (first + Z.of_nat (Z.to_nat (i - first))) with i in H by lia.
  replace (first + Z.of_nat (Z.to_nat (j - first))) with j in H by lia.
  apply H. lia.
Qed.

Lemma reference_scan_nth (l : list Z) (value : Z) (k : nat) :
  (k <= length l)%nat ->
  (forall i, (i < k)%nat -> nth i l 0 < value) ->
  ((k < length l)%nat -> value <= nth k l 0) ->
  reference_scan l value = Z.of_nat k.
Proof.
  revert k. induction l as [|x t IH]; intros k Hk Hlt Hge.
  - cbn in Hk. replace k with 0%nat by lia. reflexivity.
  - cbn [reference_scan]. destruct k.
    + specialize (Hge ltac:(cbn; lia)). cbn in Hge.
      destruct (x >=? value) eqn:E; zbool; [reflexivity|lia].
    + pose proof (Hlt 0%nat ltac:(lia)) as H0. cbn in H0.
      destruct (x >=? value) eqn:E; zbool; [lia|].
      rewrite (IH k).
      * lia.
      * cbn in Hk. lia.
      * intros i Hi. apply (Hlt (S i)). lia.
      * intro H. apply Hge. cbn. lia.
Qed.

(** The reference scan finds the position that [first_not_less] describes. *)
Lemma first_not_less_ref (s : State) (first last value r : Z) :
  valid_range s first last = true ->
  first_not_less s first last value r ->
  lower_bound_ref s first last value = r.
Proof.
  intros Hv (Hr & Hlt & Hge). unfold lower_bound_ref.
  pose proof (range_length s first last Hv) as Hl.
  rewrite (reference_scan_nth _ _ (Z.to_nat (r - first))); try lia.
  - intros i Hi. rewrite range_nth by (assumption || lia). apply Hlt. lia.
  - intro H. rewrite range_nth by (assumption || lia).
    replace (first + Z.of_nat (Z.to_nat (r - first))) with r by lia.
    apply Hge. lia.
Qed.

(* ================================================================== *)
(** * The linear scans *)

Section LinearScans.
Variable s : State.
Variables first last value : Z.
Hypothesis Hvalid : valid_range s first last = true.

Lemma one_past_last_less_sorted (r : Z) :
  sorted (range s first last) = true ->
  one_past_last_less s first last value r ->
  first_not_less s first last value r.
Proof.
  intros Hs (Hr & Hlt & Hge). split; [assumption|]. split.
  - intros i Hi.
    pose proof (sorted_range s first last Hvalid Hs i (r - 1)) as H.
    specialize (Hlt ltac:(lia)). lia.
  - intro H. apply Hge. lia.
Qed.

Lemma LinearSearch_loop_spec (fuel : nat) :
  forall runner,
    first <= runner <= last ->
    (Z.to_nat (last - runner) < fuel)%nat ->
    (forall i, first <= i < runner -> elt s i < value) ->
    exists r,
      result (LinearSearch_loop fuel runner last value s) = Ok r
      /\ first_not_less s first last value r.
Proof.
  induction fuel as [|fuel IH]; intros runner Hr Hf Hlt; [lia|].
  cbn [LinearSearch_loop].
  destruct (runner =? last) eqn:E; zbool.
  - exists last. split; [reflexivity|]. subst runner.
    repeat split; try lia. exact Hlt.
  - rewrite result_bind_deref
      by (apply (valid_range_in s first last _ Hvalid); lia).
    destruct (elt s runner >=? value) eqn:G; zbool.
    + exists runner. split; [reflexivity|]. repeat split; try lia.
      exact Hlt.
    + apply IH; try lia.
      intros i Hi. destruct (Z.eq_dec i runner); [subst; lia|].
      apply Hlt. lia.
Qed.

Lemma scan_right_spec (fuel : nat) :
  forall runner,
    first <= runner <= last ->
    (Z.to_nat (last - runner) < fuel)%nat ->
    (forall i, first <= i < runner -> elt s i < value) ->
    exists r,
      result (scan_right fuel runner last value s) = Ok r
      /\ runner <= r
      /\ first_not_less s first last value r
      /\ reads (scan_right fuel runner last value s)
         = upto runner (Z.to_nat (Z.min (r + 1) last - runner)).
Proof.
  induction fuel as [|fuel IH]; intros runner Hr Hf Hlt; [lia|].
  cbn [scan_right].
  destruct (runner <? last) eqn:E; zbool.
  - assert (Hin : in_storage s runner)
      by (apply (valid_range_in s first last _ Hvalid); lia).
    rewrite result_bind_deref, reads_bind_deref by assumption.
    destruct (elt s runner >=? value) eqn:G; zbool.
    + exists runner. split; [reflexivity|]. split; [lia|]. split.
      * repeat split; try lia. exact Hlt.
      * replace (Z.to_nat (Z.min (runner + 1) last - runner)) with 1%nat
          by lia.
        reflexivity.
    + destruct (IH (runner + 1)) as (r & Hres & Hle & Hspec & Hreads);
        try lia.
      { intros i Hi. destruct (Z.eq_dec i runner); [subst; lia|].
        apply Hlt. lia. }
      exists r. split; [assumption|]. split; [lia|].
      split; [assumption|]. rewrite Hreads.
      destruct Hspec as (Hb & _).
      replace (Z.to_nat (Z.min (r + 1) last - runner))
        with (S (Z.to_nat (Z.min (r + 1) last - (runner + 1)))) by lia.
      reflexivity.
  - exists last. split; [reflexivity|]. split; [lia|]. split.
    + repeat split; try lia. intros i Hi. apply Hlt. lia.
    + replace (Z.to_nat (Z.min (last + 1) last - runner)) with 0%nat by lia.
      reflexivity.
Qed.

Lemma scan_left_spec (fuel : nat) :
  forall runner,
    first - 1 <= runner < last ->
    (Z.to_nat (runner - first + 1) < fuel)%nat ->
    (forall i, runner < i < last -> value <= elt s i) ->
    exists r,
      result (scan_left fuel runner first value s) = Ok r
      /\ r <= runner + 1
      /\ one_past_last_less s first last value r
      /\ reads (scan_left fuel runner first value s)
         = downto runner (Z.to_nat (runner - Z.max (r - 1) first + 1)).
Proof.
  induction fuel as [|fuel IH]; intros runner Hr Hf Hge; [lia|].
  cbn [scan_left].
  destruct (runner >=? first) eqn:E; zbool.
  - assert (Hin : in_storage s runner)
      by (apply (valid_range_in s first last _ Hvalid); lia).
    rewrite result_bind_deref, reads_bind_deref by assumption.
    destruct (elt s runner <? value) eqn:G; zbool.
    + exists (runner + 1). split; [reflexivity|]. split; [lia|]. split.
      * repeat split; try lia.
        -- intros _. replace (runner + 1 - 1) with runner by lia. lia.
        -- intros i Hi. apply Hge. lia.
      * replace (Z.to_nat (runner - Z.max (runner + 1 - 1) first + 1))
          with 1%nat by lia.
        reflexivity.
    + destruct (IH (runner - 1)) as (r & Hres & Hle & Hspec & Hreads);
        try lia.
      { intros i Hi. destruct (Z.eq_dec i runner); [subst; lia|].
        apply Hge. lia. }
      exists r. split; [assumption|]. split; [lia|].
      split; [assumption|]. rewrite Hreads.
      destruct Hspec as (Hb & _).
      replace (Z.to_nat (runner - Z.max (r - 1) first + 1))
        with (S (Z.to_nat (runner - 1 - Z.max (r - 1) first + 1))) by lia.
      reflexivity.
  - exists first. split; [reflexivity|]. split; [lia|]. split.
    + repeat split; try lia. intros i Hi. apply Hge. lia.
    + replace (Z.to_nat (runner - Z.max (first - 1) first + 1))
        with 0%nat by lia.
      reflexivity.
Qed.

End LinearScans.

(* ================================================================== *)
(** * Bisection *)

Section Bisection.
Variable s : State.
Variable value : Z.

Lemma lower_bound_loop_spec (fuel : nat) :
  forall lo len,
    0 <= len -> (Z.to_nat len < fuel)%nat ->
    0 <= lo -> lo + len <= Z.of_nat (length (heap s)) ->
    (forall i j, lo <= i -> i <= j -> j < lo + len -> elt s i <= elt s j) ->
    exists r,
      result (lower_bound_loop fuel lo len value s) = Ok r
      /\ first_not_less s lo (lo + len) value r.
Proof.
  induction fuel as [|fuel IH]; intros lo len Hlen Hf Hlo Hhi Hs; [lia|].
  cbn [lower_bound_loop].
  destruct (len >? 0) eqn:E; zbool.
  - rewrite Z.shiftr_div_pow2 by lia. change (2 ^ 1) with 2.
    set (half := len / 2). assert (Hh : 0 <= half < len).
    { subst half. split; [apply Z.div_pos; lia|apply Z.div_lt; lia]. }
    rewrite result_bind_deref by (unfold in_storage; lia).
    destruct (elt s (lo + half) <? value) eqn:G; zbool.
    + destruct (IH (lo + half + 1) (len - half - 1)) as (r & Hres & Hspec);
        try lia.
      { intros i j Hi Hij Hj. apply Hs; lia. }
      exists r. split; [assumption|].
      replace (lo + half + 1 + (len - half - 1)) with (lo + len) in Hspec
        by lia.
      destruct Hspec as (Hb & Hlt & Hge).
      split; [lia|]. split; [|assumption].
      intros i Hi. destruct (Z_lt_le_dec i (lo + half + 1)).
      * pose proof (Hs i (lo + half)). lia.
      * apply Hlt. lia.
    + destruct (IH lo half) as (r & Hres & Hspec); try lia.
      { intros i j Hi Hij Hj. apply Hs; lia. }
      exists r. split; [assumption|].
      destruct Hspec as (Hb & Hlt & Hge).
      split; [lia|]. split; [assumption|].
      intro Hr. destruct (Z_lt_le_dec r (lo + half)).
      * apply Hge. assumption.
      * replace r with (lo + half) by lia. assumption.
  - exists lo. split; [reflexivity|]. repeat split; try lia.
Qed.

Lemma std_lower_bound_spec (lo hi : Z) :
  0 <= lo <= hi -> hi <= Z.of_nat (length (heap s)) ->
  (forall i j, lo <= i -> i <= j -> j < hi -> elt s i <= elt s j) ->
  exists r,
    result (std_lower_bound lo hi value s) = Ok r
    /\ first_not_less s lo hi value r.
Proof.
  intros Hlo Hhi Hs. unfold std_lower_bound.
  destruct (lower_bound_loop_spec (S (Z.to_nat (hi - lo))) lo (hi - lo))
    as (r & Hres & Hspec); try lia.
  - intros i j Hi Hij Hj. apply Hs; lia.
  - exists r. split; [assumption|].
    replace (lo + (hi - lo)) with hi in Hspec by lia. assumption.
Qed.

End Bisection.

(* ================================================================== *)
(** * No loop writes to the state *)

Lemma preserves_LinearSearch_loop fuel runner last value :
  preserves (LinearSearch_loop fuel runner last value).
Proof.
  revert runner. induction fuel; intro runner; cbn [LinearSearch_loop]; frame.
Qed.

Lemma preserves_scan_right fuel runner last value :
  preserves (scan_right fuel runner last value).
Proof. revert runner. induction fuel; intro; cbn [scan_right]; frame. Qed.

Lemma preserves_scan_left fuel runner first value :
  preserves (scan_left fuel runner first value).
Proof. revert runner. induction fuel; intro; cbn [scan_left]; frame. Qed.

Lemma preserves_lower_bound_loop fuel first len value :
  preserves (lower_bound_loop fuel first len value).
Proof.
  revert first len. induction fuel; intros; cbn [lower_bound_loop]; frame.
Qed.

Lemma preserves_std_lower_bound first last value :
  preserves (std_lower_bound first last value).
Proof. apply preserves_lower_bound_loop. Qed.

Lemma preserves_doubling_right fuel bound prev curr last value :
  preserves (doubling_right fuel bound prev curr last value).
Proof.
  revert bound prev curr. induction fuel; intros; cbn [doubling_right]; frame.
Qed.

Lemma preserves_doubling_left fuel bound prev curr first value :
  preserves (doubling_left fuel bound prev curr first value).
Proof.
  revert bound prev curr. induction fuel; intros; cbn [doubling_left]; frame.
Qed.

Lemma preserves_load_lanes k p : preserves (load_lanes k p).
Proof. revert p. induction k; intro; cbn [load_lanes]; frame. Qed.

Lemma preserves_builtin_ctz m : preserves (builtin_ctz m).
Proof. destruct m; cbn; auto with frame. Qed.

Lemma preserves_simd_loop fuel data values i n first last :
  preserves (simd_loop fuel data values i n first last).
Proof.
  revert i. induction fuel; intro; cbn [simd_loop]; [auto with frame|].
  destruct (i <? n); [|auto with frame].
  apply preserves_bind; [apply preserves_load_lanes|]. intro vec.
  destruct (negb _); [|apply IHfuel].
  apply preserves_bind; [apply preserves_builtin_ctz|].
  intro. apply preserves_ret.
Qed.

Lemma preserves_shl a count : preserves (shl a count).
Proof. unfold shl. frame. Qed.

Lemma preserves_descent fuel first step pos value :
  preserves (descent fuel first step pos value).
Proof.
  revert step pos. induction fuel; intros; cbn [descent]; frame.
Qed.

Lemma preserves_branchless_body first n value :
  preserves (branchless_body first n value).
Proof.
  unfold branchless_body.
  repeat (apply preserves_bind; [ | intro ]);
    auto using preserves_shl, preserves_descent with frame.
Qed.

#[local] Hint Resolve preserves_LinearSearch_loop preserves_scan_right
  preserves_scan_left preserves_lower_bound_loop preserves_std_lower_bound
  preserves_doubling_right preserves_doubling_left preserves_simd_loop
  preserves_branchless_body : frame.

(** Every functor leaves the state as it found it. *)
Lemma preserves_locate (st : Strategy) (first last pred value : Z) :
  preserves (locate st first last pred value).
Proof.
  destruct st; cbn [locate];
    unfold LinearSearch, ModelBiasedLinearSearch, BinarySearch,
      ModelBiasedBinarySearch, ExponentialSearch,
      ModelBiasedExponentialSearch, LinearSearch_SIMD,
      ModelBiasedLinearSearch_SIMD, BinarySearch_Branchless,
      ModelBiasedBinarySearch_Branchless; cbv zeta; frame.
Qed.

(* ================================================================== *)
(** * Exponential doubling *)

Lemma size_t_small (x : Z) : 0 <= x < 2 ^ 64 -> size_t x = x.
Proof. intro H. unfold size_t. apply Z.mod_small. assumption. Qed.

Lemma pow2_double (k : Z) : 0 <= k -> 2 ^ (k + 1) = 2 ^ k * 2 /\ 0 < 2 ^ k.
Proof.
  intro H. split.
  - rewrite Z.pow_add_r by lia. reflexivity.
  - apply Z.pow_pos_nonneg; lia.
Qed.

Section Doubling.
Variable s : State.
Variables first last value : Z.
Hypothesis Hvalid : valid_range s first last = true.

Lemma doubling_right_spec (base : Z) (fuel : nat) :
  first <= base ->
  forall k,
    0 <= k ->
    base + 2 ^ k - 1 < last ->
    elt s (base + 2 ^ k - 1) < value ->
    (Z.to_nat (last - probe_right base k) < fuel)%nat ->
    exists k',
      k <= k'
      /\ result (doubling_right fuel (2 ^ k) (base + 2 ^ k - 1)
                   (probe_right base k) last value s)
         = Ok (2 ^ k', base + 2 ^ k' - 1, probe_right base k')
      /\ base + 2 ^ k' - 1 < last
      /\ elt s (base + 2 ^ k' - 1) < value
      /\ (forall j, k <= j < k' ->
            probe_right base j < last /\ elt s (probe_right base j) < value)
      /\ (last <= probe_right base k'
          \/ value <= elt s (probe_right base k')).
Proof.
  intro Hbase. pose proof (valid_range_bounds s first last Hvalid) as Hb.
  induction fuel as [|fuel IH]; intros k Hk Hprev Hlt Hf; [lia|].
  cbn [doubling_right]. unfold probe_right in *.
  destruct (pow2_double k Hk) as (Hd & Hp).
  destruct (pow2_double (k + 1) ltac:(lia)) as (Hd' & Hp').
  destruct (base + 2 ^ (k + 1) - 1 <? last) eqn:E; zbool.
  - rewrite result_bind_deref by (unfold in_storage; lia).
    destruct (elt s (base + 2 ^ (k + 1) - 1) <? value) eqn:G; zbool.
    + rewrite size_t_small by lia. rewrite <- Hd.
      replace (base + 2 ^ (k + 1) - 1 + 2 ^ (k + 1))
        with (base + 2 ^ (k + 1 + 1) - 1) by lia.
      destruct (IH (k + 1)) as (k' & Hkk & Hres & H1 & H2 & H3 & H4);
        try lia.
      exists k'. split; [lia|]. split; [exact Hres|].
      split; [assumption|]. split; [assumption|]. split; [|assumption].
      intros j Hj. destruct (Z.eq_dec j k) as [->|Hne].
      * split; assumption.
      * apply H3. lia.
    + exists k. split; [lia|]. split; [reflexivity|].
      split; [assumption|]. split; [assumption|].
      split; [intros; lia|]. right. assumption.
  - exists k. split; [lia|]. split; [reflexivity|].
    split; [assumption|]. split; [assumption|].
    split; [intros; lia|]. left. assumption.
Qed.

Lemma doubling_left_spec (base : Z) (fuel : nat) :
  base < last ->
  forall k,
    0 <= k ->
    first <= base - (2 ^ k - 1) ->
    value <= elt s (base - (2 ^ k - 1)) ->
    (Z.to_nat (probe_left base k - first) < fuel)%nat ->
    exists k',
      k <= k'
      /\ result (doubling_left fuel (2 ^ k) (base - (2 ^ k - 1))
                   (probe_left base k) first value s)
         = Ok (2 ^ k', base - (2 ^ k' - 1), probe_left base k')
      /\ first <= base - (2 ^ k' - 1)
      /\ value <= elt s (base - (2 ^ k' - 1))
      /\ (forall j, k <= j < k' ->
            first < probe_left base j /\ value <= elt s (probe_left base j))
      /\ (probe_left base k' <= first
          \/ elt s (probe_left base k') < value).
Proof.
  intro Hbase. pose proof (valid_range_bounds s first last Hvalid) as Hb.
  induction fuel as [|fuel IH]; intros k Hk Hprev Hge Hf; [lia|].
  cbn [doubling_left]. unfold probe_left in *.
  destruct (pow2_double k Hk) as (Hd & Hp).
  destruct (pow2_double (k + 1) ltac:(lia)) as (Hd' & Hp').
  destruct (base - (2 ^ (k + 1) - 1) >? first) eqn:E; zbool.
  - rewrite result_bind_deref by (unfold in_storage; lia).
    destruct (elt s (base - (2 ^ (k + 1) - 1)) >=? value) eqn:G; zbool.
    + rewrite size_t_small by lia. rewrite <- Hd.
      replace (base - (2 ^ (k + 1) - 1) - 2 ^ (k + 1))
        with (base - (2 ^ (k + 1 + 1) - 1)) by lia.
      destruct (IH (k + 1)) as (k' & Hkk & Hres & H1 & H2 & H3 & H4);
        try lia.
      exists k'. split; [lia|]. split; [exact Hres|].
      split; [assumption|]. split; [assumption|]. split; [|assumption].
      intros j Hj. destruct (Z.eq_dec j k) as [->|Hne].
      * split; lia.
      * apply H3. lia.
    + exists k. split; [lia|]. split; [reflexivity|].
      split; [assumption|]. split; [assumption|].
      split; [intros; lia|]. right. assumption.
  - exists k. split; [lia|]. split; [reflexivity|].
    split; [assumption|]. split; [assumption|].
    split; [intros; lia|]. left. assumption.
Qed.

End Doubling.

(* ================================================================== *)
(** * The scalar strategies find the lower bound *)

Section Strategies.
Variable s : State.
Variables first last value : Z.
Hypothesis Hvalid : valid_range s first last = true.

Lemma LinearSearch_first_not_less (pred : Z) :
  exists r,
    result (LinearSearch first last pred value s) = Ok r
    /\ first_not_less s first last value r.
Proof.
  pose proof (valid_range_bounds s first last Hvalid) as Hb.
  unfold LinearSearch.
  apply (LinearSearch_loop_spec s first last value Hvalid); lia.
Qed.

Hypothesis Hsorted : sorted (range s first last) = true.

Local Abbreviation ascending := (sorted_range s first last Hvalid Hsorted).

Lemma bisect_subrange (lo hi : Z) :
  first <= lo <= hi -> hi <= last ->
  exists r,
    result (std_lower_bound lo hi value s) = Ok r
    /\ first_not_less s lo hi value r.
Proof.
  intros Hlo Hhi. pose proof (valid_range_bounds s first last Hvalid) as Hb.
  apply std_lower_bound_spec; try lia.
  intros i j Hi Hij Hj. apply ascending; lia.
Qed.

(** A bisection of a part of the range finds the lower bound of the whole
    range when everything before the part is less than [value] and
    everything from its end on is not. *)
Lemma first_not_less_widen (lo hi r : Z) :
  first <= lo <= hi -> hi <= last ->
  first_not_less s lo hi value r ->
  (first < lo -> elt s (lo - 1) < value) ->
  (hi < last -> value <= elt s hi) ->
  first_not_less s first last value r.
Proof.
  intros Hlo Hhi (Hr & Hlt & Hge) Hbefore Hafter.
  split; [lia|]. split.
  - intros i Hi. destruct (Z_lt_le_dec i lo).
    + pose proof (ascending i (lo - 1)). lia.
    + apply Hlt. lia.
  - intro Hrl. destruct (Z_lt_le_dec r hi).
    + apply Hge. assumption.
    + replace r with hi by lia. apply Hafter. lia.
Qed.

Lemma BinarySearch_first_not_less (pred : Z) :
  exists r,
    result (BinarySearch first last pred value s) = Ok r
    /\ first_not_less s first last value r.
Proof.
  pose proof (valid_range_bounds s first last Hvalid) as Hb.
  unfold BinarySearch. apply bisect_subrange; lia.
Qed.

Variable pred : Z.
Hypothesis Hpred : first <= pred < last.

Local Abbreviation pred_in := (valid_range_in s first last pred Hvalid Hpred).

(** ** [ModelBiasedLinearSearch] *)

Lemma ModelBiasedLinearSearch_right :
  elt s pred < value ->
  exists r,
    result (ModelBiasedLinearSearch first last pred value s) = Ok r
    /\ pred < r
    /\ first_not_less s first last value r
    /\ reads (ModelBiasedLinearSearch first last pred value s)
       = pred :: upto pred (Z.to_nat (Z.min (r + 1) last - pred)).
Proof.
  intro Hlt. unfold ModelBiasedLinearSearch. cbv zeta.
  rewrite result_bind_deref, reads_bind_deref by exact pred_in.
  replace (elt s pred <? value) with true by (symmetry; apply Z.ltb_lt; lia).
  destruct (scan_right_spec s first last value Hvalid
              (S (Z.to_nat (last - pred))) pred)
    as (r & Hres & Hle & Hspec & Hreads); try lia.
  { intros i Hi. pose proof (ascending i pred). lia. }
  exists r. split; [assumption|]. split.
  - destruct Hspec as (Hb & Hl & Hg).
    destruct (Z.eq_dec r pred) as [->|]; [|lia].
    specialize (Hg ltac:(lia)). lia.
  - split; [assumption|]. rewrite Hreads. reflexivity.
Qed.

Lemma ModelBiasedLinearSearch_left :
  value <= elt s pred ->
  exists r,
    result (ModelBiasedLinearSearch first last pred value s) = Ok r
    /\ r <= pred
    /\ one_past_last_less s first last value r
    /\ reads (ModelBiasedLinearSearch first last pred value s)
       = pred :: downto pred (Z.to_nat (pred - Z.max (r - 1) first + 1)).
Proof.
  intro Hge. unfold ModelBiasedLinearSearch. cbv zeta.
  rewrite result_bind_deref, reads_bind_deref by exact pred_in.
  replace (elt s pred <? value) with false
    by (symmetry; apply Z.ltb_ge; lia).
  destruct (scan_left_spec s first last value Hvalid
              (S (Z.to_nat (pred - first + 1))) pred)
    as (r & Hres & Hle & Hspec & Hreads); try lia.
  { intros i Hi. pose proof (ascending pred i). lia. }
  exists r. split; [assumption|]. split.
  - destruct Hspec as (Hb & Hl & Hg).
    destruct (Z.eq_dec r (pred + 1)) as [->|]; [|lia].
    specialize (Hl ltac:(lia)).
    replace (pred + 1 - 1) with pred in Hl by lia. lia.
  - split; [assumption|]. rewrite Hreads. reflexivity.
Qed.

Lemma ModelBiasedLinearSearch_first_not_less :
  exists r,
    result (ModelBiasedLinearSearch first last pred value s) = Ok r
    /\ first_not_less s first last value r.
Proof.
  destruct (Z_lt_le_dec (elt s pred) value) as [H|H].
  - destruct (ModelBiasedLinearSearch_right H) as (r & Hr & _ & Hs & _).
    eauto.
  - destruct (ModelBiasedLinearSearch_left H) as (r & Hr & _ & Hs & _).
    exists r. split; [assumption|].
    apply one_past_last_less_sorted; assumption.
Qed.

(** ** [ModelBiasedBinarySearch] *)

Lemma ModelBiasedBinarySearch_first_not_less :
  exists r,
    result (ModelBiasedBinarySearch first last pred value s) = Ok r
    /\ first_not_less s first last value r.
Proof.
  unfold ModelBiasedBinarySearch.
  rewrite result_bind_deref by exact pred_in.
  destruct (elt s pred <? value) eqn:E; zbool.
  - destruct (bisect_subrange pred last) as (r & Hres & Hspec); try lia.
    exists r. split; [assumption|].
    apply (first_not_less_widen pred last); try lia; try assumption.
    intros Hfp. pose proof (ascending (pred - 1) pred). lia.
  - destruct (bisect_subrange first pred) as (r & Hres & Hspec); try lia.
    exists r. split; [assumption|].
    apply (first_not_less_widen first pred); try lia; assumption.
Qed.

End Strategies.

Section Exponentials.
Variable s : State.
Variables first last value : Z.
Hypothesis Hvalid : valid_range s first last = true.
Hypothesis Hsorted : sorted (range s first last) = true.

Local Abbreviation ascending := (sorted_range s first last Hvalid Hsorted).

(** Doubling to the right of [base], then bisecting the last interval. *)
Lemma exponential_right (base : Z) :
  first <= base < last -> elt s base < value ->
  exists k r,
    0 <= k
    /\ result (doubling_right (S (Z.to_nat (last - base))) 1 base (base + 1)
                 last value s)
       = Ok (2 ^ k, base + 2 ^ k - 1, base + 2 ^ (k + 1) - 1)
    /\ (forall j, 0 <= j < k ->
          base + 2 ^ (j + 1) - 1 < last
          /\ elt s (base + 2 ^ (j + 1) - 1) < value)
    /\ (last <= base + 2 ^ (k + 1) - 1
        \/ value <= elt s (base + 2 ^ (k + 1) - 1))
    /\ result (std_lower_bound (base + 2 ^ k - 1)
                 (Z.min (base + 2 ^ (k + 1) - 1 + 1) last) value s) = Ok r
    /\ first_not_less s (base + 2 ^ k - 1)
         (Z.min (base + 2 ^ (k + 1) - 1 + 1) last) value r
    /\ first_not_less s first last value r.
Proof.
  intros Hbase Hlt.
  pose proof (doubling_right_spec s first last value Hvalid base
                (S (Z.to_nat (last - base))) ltac:(lia) 0) as H.
  unfold probe_right in H.
  change (2 ^ 0) with 1 in H. change (2 ^ (0 + 1)) with 2 in H.
  replace (base + 1 - 1) with base in H by lia.
  replace (base + 2 - 1) with (base + 1) in H by lia.
  destruct H as (k & Hk & Hres & Hprev & Hplt & Hprobes & Hexit); try lia.
  destruct (pow2_double k Hk) as (Hd & Hp).
  set (lo := base + 2 ^ k - 1) in *.
  set (curr := base + 2 ^ (k + 1) - 1) in *.
  destruct (bisect_subrange s first last value Hvalid Hsorted
              lo (Z.min (curr + 1) last)) as (r & Hbis & Hspec);
    try (subst lo curr; lia).
  exists k, r. split; [assumption|]. split; [assumption|].
  split; [assumption|]. split; [assumption|]. split; [assumption|].
  split; [assumption|].
  apply (first_not_less_widen s first last value Hvalid Hsorted
           lo (Z.min (curr + 1) last)); try (subst lo curr; lia).
  - assumption.
  - intro Hf. pose proof (ascending (lo - 1) lo). lia.
  - intro Hm. assert (Hc : curr + 1 < last) by lia.
    replace (Z.min (curr + 1) last) with (curr + 1) by lia.
    pose proof (ascending curr (curr + 1)).
    assert (first <= curr) by (subst curr; lia). lia.
Qed.

(** Doubling to the left of [base], then bisecting the last interval. *)
Lemma exponential_left (base : Z) :
  first <= base < last -> value <= elt s base ->
  exists k r,
    0 <= k
    /\ result (doubling_left (S (Z.to_nat (base - first))) 1 base (base - 1)
                 first value s)
       = Ok (2 ^ k, base - (2 ^ k - 1), base - (2 ^ (k + 1) - 1))
    /\ result (std_lower_bound (Z.max first (base - (2 ^ (k + 1) - 1)))
                 (base - (2 ^ k - 1)) value s) = Ok r
    /\ first_not_less s first last value r.
Proof.
  intros Hbase Hge.
  pose proof (doubling_left_spec s first last value Hvalid base
                (S (Z.to_nat (base - first))) ltac:(lia) 0) as H.
  unfold probe_left in H.
  change (2 ^ 0) with 1 in H. change (2 ^ (0 + 1)) with 2 in H.
  replace (base - (1 - 1)) with base in H by lia.
  replace (base - (2 - 1)) with (base - 1) in H by lia.
  destruct H as (k & Hk & Hres & Hprev & Hpge & Hprobes & Hexit); try lia.
  destruct (pow2_double k Hk) as (Hd & Hp).
  set (hi := base - (2 ^ k - 1)) in *.
  set (curr := base - (2 ^ (k + 1) - 1)) in *.
  destruct (bisect_subrange s first last value Hvalid Hsorted
              (Z.max first curr) hi) as (r & Hbis & Hspec);
    try (subst hi curr; lia).
  exists k, r. split; [assumption|]. split; [assumption|].
  split; [assumption|].
  apply (first_not_less_widen s first last value Hvalid Hsorted
           (Z.max first curr) hi); try (subst hi curr; lia).
  - assumption.
  - intro Hf. assert (Hc : first < curr) by lia.
    replace (Z.max first curr) with curr by lia.
    pose proof (ascending (curr - 1) curr).
    assert (curr < last) by (subst curr; lia). lia.
Qed.

Lemma ExponentialSearch_first_not_less (pred : Z) :
  first < last ->
  exists r,
    result (ExponentialSearch first last pred value s) = Ok r
    /\ first_not_less s first last value r.
Proof.
  intro Hne. unfold ExponentialSearch. cbv zeta.
  rewrite result_bind_deref
    by (apply (valid_range_in s first last _ Hvalid); lia).
  destruct (elt s first >=? value) eqn:E; zbool.
  - exists first. split; [reflexivity|]. repeat split; try lia.
  - destruct (exponential_right first)
      as (k & r & Hk & Hloop & _ & _ & Hbis & _ & Hspec); try lia.
    exists r. split; [|assumption].
    rewrite (result_bind _ _ s _ Hloop)
      by apply preserves_doubling_right.
    exact Hbis.
Qed.

Lemma ModelBiasedExponentialSearch_first_not_less (pred : Z) :
  first <= pred < last ->
  exists r,
    result (ModelBiasedExponentialSearch first last pred value s) = Ok r
    /\ first_not_less s first last value r.
Proof.
  intro Hpred. unfold ModelBiasedExponentialSearch. cbv zeta.
  rewrite result_bind_deref
    by (apply (valid_range_in s first last _ Hvalid); lia).
  destruct (elt s pred <? value) eqn:E; zbool.
  - destruct (exponential_right pred)
      as (k & r & Hk & Hloop & _ & _ & Hbis & _ & Hspec); try lia.
    exists r. split; [|assumption].
    rewrite (result_bind _ _ s _ Hloop)
      by apply preserves_doubling_right.
    exact Hbis.
  - destruct (exponential_left pred)
      as (k & r & Hk & Hloop & Hbis & Hspec); try lia.
    exists r. split; [|assumption].
    rewrite (result_bind _ _ s _ Hloop)
      by apply preserves_doubling_left.
    exact Hbis.
Qed.

End Exponentials.

(* ================================================================== *)
(** * Bit scan reverse *)

Lemma bsr_loop_spec (fuel : nat) :
  forall (x ret : Z) (b : nat),
    0 <= x < 2 ^ Z.of_nat b -> (b < fuel)%nat ->
    exists k,
      bsr_loop fuel x ret = Some (ret + k)
      /\ (x = 0 -> k = 0)
      /\ (0 < x -> 1 <= k /\ 2 ^ (k - 1) <= x < 2 ^ k).
Proof.
  induction fuel as [|fuel IH]; intros x ret b Hx Hb; [lia|].
  cbn [bsr_loop]. destruct (x =? 0) eqn:E; zbool.
  - exists 0. split; [f_equal; lia|]. split; lia.
  - rewrite Z.shiftr_div_pow2 by lia. change (2 ^ 1) with 2.
    pose proof (Z.div_mod x 2 ltac:(lia)) as Hdm.
    pose proof (Z.mod_pos_bound x 2 ltac:(lia)) as Hm.
    destruct b as [|b]; [cbn in Hx; lia|].
    assert (Hpow : 2 ^ Z.of_nat (S b) = 2 ^ Z.of_nat b * 2).
    { rewrite Nat2Z.inj_succ, Z.pow_succ_r by lia. lia. }
    destruct (IH (x / 2) (ret + 1) b) as (k & Hres & Hz & Hp); try lia.
    exists (k + 1). split; [rewrite Hres; f_equal; lia|].
    split; [lia|]. intros _.
    destruct (Z.eq_dec (x / 2) 0) as [H0|H0].
    + rewrite (Hz H0). cbn. lia.
    + destruct Hp as (Hk1 & Hlo & Hhi); [lia|].
      replace (k + 1 - 1) with (k - 1 + 1) by lia.
      destruct (pow2_double (k - 1) ltac:(lia)) as (Hd1 & _).
      destruct (pow2_double k ltac:(lia)) as (Hd2 & _).
      replace (k - 1 + 1) with k in * by lia. lia.
Qed.

Lemma bsr_zero : bsr 0 = Some (-1).
Proof. reflexivity. Qed.

Lemma bsr_highest_bit (x : Z) :
  0 < x < 2 ^ 64 ->
  exists k, bsr x = Some k /\ 0 <= k < 64 /\ 2 ^ k <= x < 2 ^ (k + 1).
Proof.
  intro Hx. unfold bsr.
  destruct (bsr_loop_spec 65 x (-1) 64) as (k & Hres & _ & Hp); try lia.
  destruct Hp as (Hk & Hlo & Hhi); [lia|].
  exists (k - 1). split; [rewrite Hres; f_equal; lia|].
  replace (k - 1 + 1) with k by lia. split; [|lia].
  split; [lia|].
  assert (k - 1 < 64); [|lia].
  apply (Z.pow_lt_mono_r_iff 2); lia.
Qed.

Lemma intptr_t_small (x : Z) : 0 <= x < 2 ^ 63 -> intptr_t x = x.
Proof.
  intro H. unfold intptr_t. rewrite Z.mod_small by lia.
  destruct (x <? 2 ^ 63) eqn:E; zbool; lia.
Qed.

(* ================================================================== *)
(** * Lower bound: what holds for the scalar strategies *)

(** On a sorted range and with the predicted position inside it, each of the
    six scalar functors returns the position of the reference scan. *)
Lemma scalar_lower_bound (st : Strategy) (s : State)
      (first last pred value : Z) :
  In st scalar_strategies ->
  valid_range s first last = true ->
  sorted (range s first last) = true ->
  first <= pred < last ->
  result (locate st first last pred value s)
  = Ok (lower_bound_ref s first last value).
Proof.
  intros Hst Hv Hs Hp.
  assert (H : exists r, result (locate st first last pred value s) = Ok r
                        /\ first_not_less s first last value r).
  { cbn in Hst.
    destruct Hst as [<-|[<-|[<-|[<-|[<-|[<-|[]]]]]]]; cbn [locate].
    - apply LinearSearch_first_not_less; assumption.
    - apply ModelBiasedLinearSearch_first_not_less; assumption.
    - apply BinarySearch_first_not_less; assumption.
    - apply ModelBiasedBinarySearch_first_not_less; assumption.
    - apply ExponentialSearch_first_not_less; try assumption. lia.
    - apply ModelBiasedExponentialSearch_first_not_less; assumption. }
  destruct H as (r & Hr & Hspec). rewrite Hr. f_equal. symmetry.
  apply first_not_less_ref; assumption.
Qed.

(** Consequently the three scalar model-biased functors do not depend on the
    predicted position. *)
Lemma scalar_hint_invariance (st : Strategy) (s : State)
      (first last pred pred' value : Z) :
  In st scalar_strategies ->
  valid_range s first last = true ->
  sorted (range s first last) = true ->
  first <= pred < last -> first <= pred' < last ->
  result (locate st first last pred value s)
  = result (locate st first last pred' value s).
Proof.
  intros Hst Hv Hs Hp Hp'.
  rewrite !(scalar_lower_bound st) by assumption. reflexivity.
Qed.

(* ================================================================== *)
(** * The first probe of the branchless descent *)

Lemma reads_bind_prefix {A B} (m : M A) (f : A -> M B) (s : State) :
  exists tl, reads (bind m f s) = reads (m s) ++ tl.
Proof.
  unfold bind. destruct (result (m s)); cbn.
  - eexists. reflexivity.
  - exists []. symmetry. apply app_nil_r.
  - exists []. symmetry. apply app_nil_r.
Qed.

Lemma shl_one (k : Z) (s : State) :
  0 <= k < 63 -> shl 1 k s = mkRun (Ok (2 ^ k)) s [].
Proof.
  intro Hk. unfold shl.
  replace ((k <? 0) || (64 <=? k)) with false
    by (symmetry; apply orb_false_iff; split;
        [apply Z.ltb_ge|apply Z.leb_gt]; lia).
  rewrite Z.shiftl_1_l, intptr_t_small; [reflexivity|].
  split; [apply Z.pow_nonneg; lia|apply Z.pow_lt_mono_r; lia].
Qed.

Lemma descent_unfold (fuel : nat) (first step pos value : Z) :
  descent (S fuel) first step pos value
  = if step >? 0 then
      x <- deref (first + step) ;;
      descent fuel first (Z.shiftr step 1)
        (if x <? value then intptr_t (pos + step) else pos) value
    else ret pos.
Proof. reflexivity. Qed.

(** For a range of length [n] the descent starts by reading the element at
    offset [2^k] from [first], [k] being the index of the highest set bit of
    [n]. *)
Lemma branchless_first_probe (s : State) (first n value : Z) :
  0 < n < 2 ^ 63 ->
  exists k tl,
    bsr n = Some k /\ 0 <= k /\ 2 ^ k <= n < 2 ^ (k + 1)
    /\ reads (branchless_body first n value s) = (first + 2 ^ k) :: tl.
Proof.
  intro Hn. destruct (bsr_highest_bit n ltac:(lia)) as (k & Hk & Hr & Hb).
  assert (Hk63 : k < 63) by (apply (Z.pow_lt_mono_r_iff 2); lia).
  assert (Hpos : 0 < 2 ^ k) by (apply Z.pow_pos_nonneg; lia).
  unfold branchless_body.
  rewrite (reads_bind _ _ s (MINUS_ONE s)) by reflexivity.
  rewrite Hk. cbn [lift].
  rewrite (reads_bind _ _ s k) by reflexivity.
  rewrite (reads_bind _ _ s (2 ^ k)) by (rewrite shl_one by lia; reflexivity).
  rewrite shl_one by lia. cbn [read_MINUS_ONE ret reads app].
  destruct (reads_bind_prefix (descent 65 first (2 ^ k) (MINUS_ONE s) value)
              (fun pos => ret (first + (pos + 1))) s) as (tl & ->).
  change (descent 65) with (descent (S 64)). rewrite descent_unfold.
  replace (2 ^ k >? 0) with true
    by (symmetry; rewrite Z.gtb_ltb; apply Z.ltb_lt; assumption).
  match goal with
  | |- context [reads (bind (deref ?p) ?f s)] =>
      destruct (reads_bind_prefix (deref p) f s) as (tl' & ->)
  end.
  exists k, (tl' ++ tl). split; [reflexivity|]. split; [lia|].
  split; [assumption|]. reflexivity.
Qed.

(** When the length is a power of two, that first read is at [last]. *)
Lemma branchless_power_of_two_probe (s : State) (first pred value k : Z) :
  0 <= k < 63 ->
  exists tl,
    reads (BinarySearch_Branchless first (first + 2 ^ k) pred value s)
    = (first + 2 ^ k) :: tl.
Proof.
  intro Hk. unfold BinarySearch_Branchless. cbv zeta.
  assert (Hp : 0 < 2 ^ k < 2 ^ 63).
  { split; [apply Z.pow_pos_nonneg; lia|apply Z.pow_lt_mono_r; lia]. }
  replace (first + 2 ^ k - first) with (2 ^ k) by lia.
  rewrite size_t_small by lia.
  destruct (branchless_first_probe s first (2 ^ k) value Hp)
    as (k' & tl & _ & Hk' & Hb & Hreads).
  assert (k' = k).
  { destruct (pow2_double k ltac:(lia)) as (Hd & _).
    assert (k' < k + 1) by (apply (Z.pow_lt_mono_r_iff 2); lia).
    assert (k < k' + 1) by (apply (Z.pow_lt_mono_r_iff 2); lia).
    lia. }
  subst k'. exists tl. exact Hreads.
Qed.

(* ================================================================== *)
(** * The run of the doubling loop *)

Lemma run_ext {A} (r : Run A) (a : Res A) (t : State) (l : list Z) :
  result r = a -> final r = t -> reads r = l -> r = mkRun a t l.
Proof. intros <- <- <-. destruct r. reflexivity. Qed.

(** The doubling loop as [ExponentialSearch] runs it: the state in which it
    ends and the positions it reads, in order. *)
Lemma doubling_right_run (s : State) (first last value base : Z)
      (fuel : nat) :
  valid_range s first last = true ->
  first <= base ->
  forall k,
    0 <= k ->
    base + 2 ^ k - 1 < last ->
    elt s (base + 2 ^ k - 1) < value ->
    (Z.to_nat (last - probe_right base k) < fuel)%nat ->
    exists k',
      k <= k'
      /\ result (doubling_right fuel (2 ^ k) (base + 2 ^ k - 1)
                   (probe_right base k) last value s)
         = Ok (2 ^ k', base + 2 ^ k' - 1, probe_right base k')
      /\ reads (doubling_right fuel (2 ^ k) (base + 2 ^ k - 1)
                  (probe_right base k) last value s)
         = probes_right base k
             (Z.to_nat (k' - k)
              + (if probe_right base k' <? last then 1 else 0))
      /\ base + 2 ^ k' - 1 < last
      /\ elt s (base + 2 ^ k' - 1) < value
      /\ (forall j, k <= j < k' ->
            probe_right base j < last /\ elt s (probe_right base j) < value)
      /\ (last <= probe_right base k'
          \/ value <= elt s (probe_right base k')).
Proof.
  intros Hvalid Hbase.
  pose proof (valid_range_bounds s first last Hvalid) as Hb.
  induction fuel as [|fuel IH]; intros k Hk Hprev Hlt Hf; [lia|].
  cbn [doubling_right]. unfold probe_right in *.
  destruct (pow2_double k Hk) as (Hd & Hp).
  destruct (pow2_double (k + 1) ltac:(lia)) as (Hd' & Hp').
  destruct (base + 2 ^ (k + 1) - 1 <? last) eqn:E.
  - pose proof E as E'. apply Z.ltb_lt in E'.
    rewrite result_bind_deref, reads_bind_deref by (unfold in_storage; lia).
    destruct (elt s (base + 2 ^ (k + 1) - 1) <? value) eqn:G.
    + pose proof G as G'. apply Z.ltb_lt in G'.
      rewrite size_t_small by lia. rewrite <- Hd.
      replace (base + 2 ^ (k + 1) - 1 + 2 ^ (k + 1))
        with (base + 2 ^ (k + 1 + 1) - 1) by lia.
      destruct (IH (k + 1))
        as (k' & Hkk & Hres & Hreads & H1 & H2 & H3 & H4); try lia.
      exists k'. split; [lia|]. split; [exact Hres|]. split.
      { rewrite Hreads.
        destruct (base + 2 ^ (k' + 1) - 1 <? last);
          [ replace (Z.to_nat (k' - k) + 1)%nat
              with (S (Z.to_nat (k' - (k + 1)) + 1)) by lia
          | replace (Z.to_nat (k' - k) + 0)%nat
              with (S (Z.to_nat (k' - (k + 1)) + 0)) by lia ];
          reflexivity. }
      split; [assumption|]. split; [assumption|]. split; [|assumption].
      intros j Hj. destruct (Z.eq_dec j k) as [->|Hne].
      * split; [exact E'|exact G'].
      * apply H3. lia.
    + apply Z.ltb_ge in G.
      exists k. split; [lia|]. split; [reflexivity|]. split.
      { rewrite E, Z.sub_diag. reflexivity. }
      split; [assumption|]. split; [assumption|].
      split; [intros; lia|]. right. assumption.
  - pose proof E as E'. apply Z.ltb_ge in E'.
    exists k. split; [lia|]. split; [reflexivity|]. split.
    { rewrite E, Z.sub_diag. reflexivity. }
    split; [assumption|]. split; [assumption|].
    split; [intros; lia|]. left. assumption.
Qed.

(* ================================================================== *)
(** * Claims *)

(** C1 (lower-bound equivalence for every strategy): refuted for the
    vectorised and the branchless functors.  On the sorted sequence
    1,3,3,5,8,13,21,34 and the query 5 [LinearSearch_SIMD] returns position 0
    where the reference scan gives 3; on 1,...,7 and the query 2
    [BinarySearch_Branchless] returns position 0 where the reference scan
    gives 1.  The six scalar functors do return the reference position on
    both inputs. *)
Theorem C1_lower_bound_equivalence_fails :
  valid_range eight 0 8 = true
  /\ sorted (range eight 0 8) = true
  /\ lower_bound_ref eight 0 8 5 = 3
  /\ result (LinearSearch_SIMD 0 8 0 5 eight) = Ok 0
  /\ forallb (fun st => returns_at st eight 0 8 (7 :: positions) 5 3)
       scalar_strategies = true
  /\ valid_range one_to_seven 0 7 = true
  /\ sorted (range one_to_seven 0 7) = true
  /\ lower_bound_ref one_to_seven 0 7 2 = 1
  /\ result (BinarySearch_Branchless 0 7 0 2 one_to_seven) = Ok 0
  /\ reads (BinarySearch_Branchless 0 7 0 2 one_to_seven) = [4; 2; 1]
  /\ forallb (fun st => returns_at st one_to_seven 0 7 positions 2 1)
       scalar_strategies = true.
Proof. vm_compute. repeat split. Qed.

(** C2 (every probe of the branchless descent is at an offset below the
    length [n] of the range): refuted when [n] is a power of two.  With
    [n = 4] the first probe is at offset 4, one past the range; when the
    range is the whole storage that read is outside the storage.  With
    [n = 7] the probes are at offsets 4, 2 and 1.  In the model-biased
    functor with the half-range [[4, 8)] the probes after the read of the
    predicted position are at positions 4, 2 and 1: they are based at
    [first], and two of them lie before the half-range. *)
Theorem C2_branchless_probe_past_the_range :
  reads (BinarySearch_Branchless 0 4 0 5 scenario) = [4; 2; 1]
  /\ reads (BinarySearch_Branchless 0 4 0 5 (init_state [1; 3; 3; 5])) = [4]
  /\ result (BinarySearch_Branchless 0 4 0 5 (init_state [1; 3; 3; 5])) = UB
  /\ reads (BinarySearch_Branchless 0 7 0 5 scenario) = [4; 2; 1]
  /\ reads (ModelBiasedBinarySearch_Branchless 0 8 4 22 eight) = [4; 4; 2; 1].
Proof. vm_compute. repeat split. Qed.

(** C3 (hint invariance of every model-biased strategy): refuted for
    [ModelBiasedBinarySearch_Branchless] and [ModelBiasedLinearSearch_SIMD].
    With the sequence and the query fixed, the predicted positions 0 and 6
    make the branchless functor return 7 and 1, and the predicted positions
    0 and 1 make the vectorised functor return 8 and 0. *)
Theorem C3_hint_invariance_fails :
  result (ModelBiasedBinarySearch_Branchless 0 7 0 22 scenario) = Ok 7
  /\ result (ModelBiasedBinarySearch_Branchless 0 7 6 22 scenario) = Ok 1
  /\ result (ModelBiasedLinearSearch_SIMD 0 8 0 1 eight) = Ok 8
  /\ result (ModelBiasedLinearSearch_SIMD 0 8 1 1 eight) = Ok 0.
Proof. vm_compute. repeat split. Qed.

(** C4 ([ModelBiasedBinarySearch_Branchless] descends on the chosen
    half-range, based at its start): refuted.  With the predicted position 6
    and the query 22 the element 21 at the predicted position is less than
    the query, so the half-range is [[6, 7)]; the functor reads position 6
    and then probes position 1, based at [first], and returns position 1,
    where the lower bound within the half-range is 7. *)
Theorem C4_biased_branchless_based_at_first :
  elt scenario 6 < 22
  /\ reads (ModelBiasedBinarySearch_Branchless 0 7 6 22 scenario) = [6; 1]
  /\ result (ModelBiasedBinarySearch_Branchless 0 7 6 22 scenario) = Ok 1
  /\ lower_bound_ref scenario 6 7 22 = 7
  /\ result (ModelBiasedBinarySearch 0 7 6 22 scenario) = Ok 7.
Proof. vm_compute. repeat split. Qed.

(** C5: on a sorted range with the predicted position inside it,
    [ModelBiasedLinearSearch] first reads the element at the predicted
    position.  When that element is less than the query it reads the
    positions from the predicted one upwards and returns the first position
    whose element is not less than the query, or [last] when there is none;
    otherwise it reads the positions from the predicted one downwards and
    returns one past the last position whose element is less than the
    query, or [first] when no element is less.  Either way the position is
    the one the reference scan finds. *)
Theorem C5_ModelBiasedLinearSearch (s : State) (first last pred value : Z) :
  valid_range s first last = true ->
  sorted (range s first last) = true ->
  first <= pred < last ->
  (elt s pred < value ->
   exists r,
     result (ModelBiasedLinearSearch first last pred value s) = Ok r
     /\ reads (ModelBiasedLinearSearch first last pred value s)
        = pred :: upto pred (Z.to_nat (Z.min (r + 1) last - pred))
     /\ pred < r
     /\ first_not_less s first last value r)
  /\ (value <= elt s pred ->
      exists r,
        result (ModelBiasedLinearSearch first last pred value s) = Ok r
        /\ reads (ModelBiasedLinearSearch first last pred value s)
           = pred :: downto pred (Z.to_nat (pred - Z.max (r - 1) first + 1))
        /\ r <= pred
        /\ one_past_last_less s first last value r)
  /\ result (ModelBiasedLinearSearch first last pred value s)
     = Ok (lower_bound_ref s first last value).
Proof.
  intros Hv Hs Hp. split; [|split].
  - intro Hlt.
    destruct (ModelBiasedLinearSearch_right s first last value Hv Hs pred
                Hp Hlt) as (r & Hr & Hpr & Hspec & Hreads).
    exists r. auto.
  - intro Hge.
    destruct (ModelBiasedLinearSearch_left s first last value Hv Hs pred
                Hp Hge) as (r & Hr & Hpr & Hspec & Hreads).
    exists r. auto.
  - apply (scalar_lower_bound ModelBiasedLinear); try assumption.
    cbn. auto.
Qed.

Lemma C5_witness :
  valid_range scenario 0 7 = true
  /\ sorted (range scenario 0 7) = true
  /\ 0 <= 4 < 7
  /\ result (ModelBiasedLinearSearch 0 7 4 3 scenario)
     = Ok (lower_bound_ref scenario 0 7 3).
Proof.
  split; [reflexivity|]. split; [reflexivity|]. split; [lia|].
  apply (C5_ModelBiasedLinearSearch scenario 0 7 4 3);
    [reflexivity | reflexivity | lia].
Defined.

(** C6: on a sorted non-empty range [ExponentialSearch] returns [first],
    having read only the first element, when that element is not less than
    the query.  Otherwise it reads the first element and then runs its
    doubling loop, which ends after some number [k] of doublings with
    [bound = 2^k], [prev] at offset [2^k - 1] and [curr] at offset
    [2^(k+1) - 1], having read the probes at the offsets 1, 3, 7, ...
    (steps 1, 2, 4, ...) in this order: every earlier probe was inside the
    range at an element less than the query, and [curr] has reached
    [last] or is at an element not less than the query; the functor then
    runs [std::lower_bound] on [[prev, min(curr + 1, last))] and returns
    its result, the first position there whose element is not less than
    the query.  The run of the functor is exactly this: its reads are the
    first element, the probes of the loop and the reads of that bisection,
    and it leaves the state alone.  In both cases the result is the
    position the reference scan finds in [[first, last)]. *)
Theorem C6_ExponentialSearch (s : State) (first last pred value : Z) :
  valid_range s first last = true ->
  sorted (range s first last) = true ->
  first < last ->
  (value <= elt s first ->
   result (ExponentialSearch first last pred value s) = Ok first
   /\ reads (ExponentialSearch first last pred value s) = [first])
  /\ (elt s first < value ->
      exists k r,
        0 <= k
        /\ result (doubling_right (S (Z.to_nat (last - first))) 1 first
                     (first + 1) last value s)
           = Ok (2 ^ k, first + 2 ^ k - 1, first + 2 ^ (k + 1) - 1)
        /\ reads (doubling_right (S (Z.to_nat (last - first))) 1 first
                    (first + 1) last value s)
           = probes_right first 0
               (Z.to_nat k
                + (if first + 2 ^ (k + 1) - 1 <? last then 1 else 0))
        /\ (forall j, 0 <= j < k ->
              first + 2 ^ (j + 1) - 1 < last
              /\ elt s (first + 2 ^ (j + 1) - 1) < value)
        /\ (last <= first + 2 ^ (k + 1) - 1
            \/ value <= elt s (first + 2 ^ (k + 1) - 1))
        /\ result (std_lower_bound (first + 2 ^ k - 1)
                     (Z.min (first + 2 ^ (k + 1) - 1 + 1) last) value s)
           = Ok r
        /\ first_not_less s (first + 2 ^ k - 1)
             (Z.min (first + 2 ^ (k + 1) - 1 + 1) last) value r
        /\ result (ExponentialSearch first last pred value s) = Ok r
        /\ ExponentialSearch first last pred value s
           = mkRun (Ok r) s
               (first
                :: probes_right first 0
                     (Z.to_nat k
                      + (if first + 2 ^ (k + 1) - 1 <? last then 1 else 0))
                ++ reads (std_lower_bound (first + 2 ^ k - 1)
                            (Z.min (first + 2 ^ (k + 1) - 1 + 1) last)
                            value s)))
  /\ result (ExponentialSearch first last pred value s)
     = Ok (lower_bound_ref s first last value).
Proof.
  intros Hv Hs Hne.
  assert (Hin : in_storage s first)
    by (apply (valid_range_in s first last _ Hv); lia).
  split; [|split].
  - intro Hge. unfold ExponentialSearch. cbv zeta.
    rewrite result_bind_deref, reads_bind_deref by assumption.
    replace (elt s first >=? value) with true
      by (symmetry; rewrite Z.geb_leb; apply Z.leb_le; assumption).
    split; reflexivity.
  - intro Hlt.
    pose proof (doubling_right_run s first last value first
                  (S (Z.to_nat (last - first))) Hv ltac:(lia) 0) as H.
    unfold probe_right in H.
    change (2 ^ 0) with 1 in H. change (2 ^ (0 + 1)) with 2 in H.
    replace (first + 1 - 1) with first in H by lia.
    replace (first + 2 - 1) with (first + 1) in H by lia.
    destruct H as (k & Hk & Hloop & Hreads & Hprev & Hplt & Hprobes & Hexit);
      try lia.
    rewrite Z.sub_0_r in Hreads.
    destruct (pow2_double k Hk) as (Hd & Hp).
    destruct (bisect_subrange s first last value Hv Hs
                (first + 2 ^ k - 1)
                (Z.min (first + 2 ^ (k + 1) - 1 + 1) last))
      as (r & Hbis & Hsub); try lia.
    assert (Hres : result (ExponentialSearch first last pred value s) = Ok r).
    { unfold ExponentialSearch. cbv zeta.
      rewrite result_bind_deref by assumption.
      replace (elt s first >=? value) with false
        by (symmetry; rewrite Z.geb_leb; apply Z.leb_gt; assumption).
      rewrite (result_bind _ _ s _ Hloop) by apply preserves_doubling_right.
      exact Hbis. }
    exists k, r. repeat (split; [assumption|]).
    apply run_ext.
    + exact Hres.
    + apply (preserves_locate Exponential).
    + unfold ExponentialSearch. cbv zeta.
      rewrite reads_bind_deref by assumption.
      replace (elt s first >=? value) with false
        by (symmetry; rewrite Z.geb_leb; apply Z.leb_gt; assumption).
      rewrite (reads_bind _ _ s _ Hloop) by apply preserves_doubling_right.
      rewrite Hreads. reflexivity.
  - apply (scalar_lower_bound Exponential s first last first);
      try assumption; try lia.
    cbn. auto 10.
Qed.

Lemma C6_witness :
  valid_range scenario 0 7 = true
  /\ sorted (range scenario 0 7) = true
  /\ 0 < 7
  /\ result (ExponentialSearch 0 7 0 13 scenario)
     = Ok (lower_bound_ref scenario 0 7 13).
Proof.
  split; [reflexivity|]. split; [reflexivity|]. split; [lia|].
  apply (C6_ExponentialSearch scenario 0 7 0 13);
    [reflexivity | reflexivity | lia].
Defined.

(** C7 (the concrete scenarios hold for every strategy): refuted.  On the
    sequence 1,3,3,5,8,13,21 the six scalar functors return 3, 3, 0 and 7
    for the queries 5, 4, 0 and 22 at every predicted position, and 1 for
    the query 3 at the predicted position 4.  But for the query 3 at the
    predicted position 4 [ModelBiasedBinarySearch_Branchless] returns 0;
    [LinearSearch_SIMD] loads eight elements from a range of seven, which is
    undefined when the storage ends with the range, and returns 0 for the
    query 5 and 7 for the query 0 when one more word of storage follows;
    [ModelBiasedLinearSearch_SIMD] then returns 0 for the query 3 at the
    predicted position 4. *)
Theorem C7_scenarios :
  forallb (fun st => returns_at st scenario 0 7 positions 5 3
                     && returns_at st scenario 0 7 positions 4 3
                     && returns_at st scenario 0 7 positions 0 0
                     && returns_at st scenario 0 7 positions 22 7
                     && returns_at st scenario 0 7 [4] 3 1)
    scalar_strategies = true
  /\ result (ModelBiasedBinarySearch_Branchless 0 7 4 3 scenario) = Ok 0
  /\ result (LinearSearch_SIMD 0 7 0 5 scenario) = UB
  /\ reads (LinearSearch_SIMD 0 7 0 5 scenario) = [0; 1; 2; 3; 4; 5; 6; 7]
  /\ result (LinearSearch_SIMD 0 7 0 5 scenario_padded) = Ok 0
  /\ result (LinearSearch_SIMD 0 7 0 0 scenario_padded) = Ok 7
  /\ result (ModelBiasedLinearSearch_SIMD 0 7 4 3 scenario_padded) = Ok 0.
Proof. vm_compute. repeat split. Qed.

(** C8: no functor writes to the storage or to [MINUS_ONE]: after every
    call, of every functor, on every state, the storage and the global are
    what they were before the call; therefore calling the same functor
    again with the same arguments returns the same position. *)
Theorem C8_no_mutation (st : Strategy) (first last pred value : Z)
        (s : State) :
  let call := locate st first last pred value in
  heap (final (call s)) = heap s
  /\ MINUS_ONE (final (call s)) = MINUS_ONE s
  /\ result (call (final (call s))) = result (call s).
Proof.
  cbv zeta. rewrite (preserves_locate st first last pred value s).
  repeat split.
Qed.

(** C9: [bsr(0)] is -1; for every [size_t] value [x > 0], [bsr(x)] is the
    index [k] of the highest set bit, [2^k <= x < 2^(k+1)]; and for every
    length [n > 0] of a range (a [ptrdiff_t] distance, below [2^63]) the
    initial step [intptr_t(1) << bsr(n)] is [2^k], the largest power of two
    that does not exceed [n]. *)
Theorem C9_bsr (x : Z) (s : State) :
  bsr 0 = Some (-1)
  /\ (0 < x < 2 ^ 64 ->
      exists k,
        bsr x = Some k /\ 0 <= k /\ 2 ^ k <= x < 2 ^ (k + 1)
        /\ Z.testbit x k = true
        /\ forall j, k < j -> Z.testbit x j = false)
  /\ (0 < x < 2 ^ 63 ->
      exists k,
        bsr x = Some k
        /\ result (shl 1 k s) = Ok (2 ^ k)
        /\ 2 ^ k <= x
        /\ forall j, 0 <= j -> 2 ^ j <= x -> 2 ^ j <= 2 ^ k).
Proof.
  split; [reflexivity|]. split.
  - intro Hx. destruct (bsr_highest_bit x Hx) as (k & Hk & Hr & Hb).
    assert (Hlog : Z.log2 x = k) by (apply Z.log2_unique; lia).
    exists k. split; [assumption|]. split; [lia|]. split; [lia|]. split.
    + rewrite <- Hlog. apply Z.bit_log2. lia.
    + intros j Hj. apply Z.bits_above_log2; lia.
  - intro Hx. destruct (bsr_highest_bit x ltac:(lia)) as (k & Hk & Hr & Hb).
    exists k. split; [assumption|].
    assert (Hk63 : k < 63).
    { apply (Z.pow_lt_mono_r_iff 2); lia. }
    split; [|split; [lia|]].
    + unfold shl.
      replace ((k <? 0) || (64 <=? k)) with false
        by (symmetry; apply orb_false_iff; split;
            [apply Z.ltb_ge|apply Z.leb_gt]; lia).
      rewrite Z.shiftl_1_l. cbn [ret result].
      rewrite intptr_t_small; [reflexivity|].
      split; [apply Z.pow_nonneg; lia|].
      apply Z.pow_lt_mono_r; lia.
    + intros j Hj Hle. apply Z.pow_le_mono_r; [lia|].
      assert (j < k + 1); [|lia].
      apply (Z.pow_lt_mono_r_iff 2); lia.
Qed.

Lemma C9_witness :
  0 < 7 < 2 ^ 63
  /\ exists k,
       bsr 7 = Some k
       /\ result (shl 1 k scenario) = Ok (2 ^ k)
       /\ 2 ^ k <= 7
       /\ forall j, 0 <= j -> 2 ^ j <= 7 -> 2 ^ j <= 2 ^ k.
Proof.
  split; [lia|]. apply (C9_bsr 7 scenario). lia.
Defined.

(** C10: on an empty range ([first == last]) [LinearSearch] and
    [BinarySearch] return [last], read no element and leave the state
    alone, for every predicted position, every query and every state. *)
Theorem C10_empty_range (s : State) (first last pred value : Z) :
  first = last ->
  LinearSearch first last pred value s = mkRun (Ok last) s []
  /\ BinarySearch first last pred value s = mkRun (Ok last) s [].
Proof.
  intros ->. unfold LinearSearch, BinarySearch, std_lower_bound.
  rewrite Z.sub_diag. cbn [Z.to_nat LinearSearch_loop lower_bound_loop].
  rewrite Z.eqb_refl. split; reflexivity.
Qed.

Lemma C10_witness :
  LinearSearch 3 3 5 8 scenario = mkRun (Ok 3) scenario []
  /\ BinarySearch 3 3 5 8 scenario = mkRun (Ok 3) scenario [].
Proof. apply (C10_empty_range scenario 3 3 5 8). reflexivity. Defined.

(* ================================================================== *)
(** * Further properties of the scalar functors *)

(** X1: [LinearSearch] returns the position of the reference scan on every
    range of the storage, sorted or not and empty or not, whatever the
    predicted position. *)
Theorem X1_LinearSearch_reference (s : State) (first last pred value : Z) :
  valid_range s first last = true ->
  result (LinearSearch first last pred value s)
  = Ok (lower_bound_ref s first last value).
Proof.
  intro Hv.
  destruct (LinearSearch_first_not_less s first last value Hv pred)
    as (r & Hr & Hspec).
  rewrite Hr. f_equal. symmetry. apply first_not_less_ref; assumption.
Qed.

Lemma X1_witness :
  valid_range (init_state [5; 1; 7; 3]) 0 4 = true
  /\ result (LinearSearch 0 4 9 6 (init_state [5; 1; 7; 3])) = Ok 2.
Proof.
  split; [reflexivity|].
  apply (X1_LinearSearch_reference (init_state [5; 1; 7; 3]) 0 4 9 6).
  reflexivity.
Defined.

(** X2: on a sorted range, empty or not, [BinarySearch] returns the position
    of the reference scan, whatever the predicted position. *)
Theorem X2_BinarySearch_reference (s : State) (first last pred value : Z) :
  valid_range s first last = true ->
  sorted (range s first last) = true ->
  result (BinarySearch first last pred value s)
  = Ok (lower_bound_ref s first last value).
Proof.
  intros Hv Hs.
  destruct (BinarySearch_first_not_less s first last value Hv Hs pred)
    as (r & Hr & Hspec).
  rewrite Hr. f_equal. symmetry. apply first_not_less_ref; assumption.
Qed.

Lemma X2_witness :
  valid_range scenario 0 7 = true
  /\ sorted (range scenario 0 7) = true
  /\ result (BinarySearch 0 7 40 13 scenario) = Ok 5
  /\ reads (BinarySearch 0 7 40 13 scenario) = [3; 5; 4].
Proof.
  split; [reflexivity|]. split; [reflexivity|]. split; [|reflexivity].
  apply (X2_BinarySearch_reference scenario 0 7 40 13); reflexivity.
Defined.

(** X3: on a sorted range with the predicted position inside it,
    [ModelBiasedBinarySearch] returns the position of the reference scan of
    the whole range, although it bisects only one side of the predicted
    position. *)
Theorem X3_ModelBiasedBinarySearch_reference
        (s : State) (first last pred value : Z) :
  valid_range s first last = true ->
  sorted (range s first last) = true ->
  first <= pred < last ->
  result (ModelBiasedBinarySearch first last pred value s)
  = Ok (lower_bound_ref s first last value).
Proof.
  intros Hv Hs Hp.
  destruct (ModelBiasedBinarySearch_first_not_less s first last value Hv Hs
              pred Hp) as (r & Hr & Hspec).
  rewrite Hr. f_equal. symmetry. apply first_not_less_ref; assumption.
Qed.

Lemma X3_witness :
  valid_range scenario 0 7 = true
  /\ sorted (range scenario 0 7) = true
  /\ 0 <= 5 < 7
  /\ result (ModelBiasedBinarySearch 0 7 5 3 scenario) = Ok 1.
Proof.
  split; [reflexivity|]. split; [reflexivity|]. split; [lia|].
  apply (X3_ModelBiasedBinarySearch_reference scenario 0 7 5 3);
    [reflexivity | reflexivity | lia].
Defined.

(** X4: on a sorted range with the predicted position inside it,
    [ModelBiasedExponentialSearch] returns the position of the reference
    scan of the whole range, in both directions of its doubling. *)
Theorem X4_ModelBiasedExponentialSearch_reference
        (s : State) (first last pred value : Z) :
  valid_range s first last = true ->
  sorted (range s first last) = true ->
  first <= pred < last ->
  result (ModelBiasedExponentialSearch first last pred value s)
  = Ok (lower_bound_ref s first last value).
Proof.
  intros Hv Hs Hp.
  destruct (ModelBiasedExponentialSearch_first_not_less s first last value
              Hv Hs pred Hp) as (r & Hr & Hspec).
  rewrite Hr. f_equal. symmetry. apply first_not_less_ref; assumption.
Qed.

Lemma X4_witness :
  valid_range scenario 0 7 = true
  /\ sorted (range scenario 0 7) = true
  /\ 0 <= 6 < 7
  /\ result (ModelBiasedExponentialSearch 0 7 6 3 scenario) = Ok 1.
Proof.
  split; [reflexivity|]. split; [reflexivity|]. split; [lia|].
  apply (X4_ModelBiasedExponentialSearch_reference scenario 0 7 6 3);
    [reflexivity | reflexivity | lia].
Defined.

(** X5: on a sorted range, [ModelBiasedLinearSearch],
    [ModelBiasedBinarySearch] and [ModelBiasedExponentialSearch] return the
    same position for any two predicted positions inside the range. *)
Theorem X5_scalar_hint_invariance
        (st : Strategy) (s : State) (first last pred pred' value : Z) :
  In st [ModelBiasedLinear; ModelBiasedBinary; ModelBiasedExponential] ->
  valid_range s first last = true ->
  sorted (range s first last) = true ->
  first <= pred < last -> first <= pred' < last ->
  result (locate st first last pred value s)
  = result (locate st first last pred' value s).
Proof.
  intros Hst Hv Hs Hp Hp'.
  apply scalar_hint_invariance; try assumption.
  cbn in Hst. cbn. intuition.
Qed.

Lemma X5_witness :
  result (locate ModelBiasedExponential 0 7 0 13 scenario)
  = result (locate ModelBiasedExponential 0 7 6 13 scenario).
Proof.
  apply (X5_scalar_hint_invariance ModelBiasedExponential scenario 0 7 0 6 13);
    [cbn; auto | reflexivity | reflexivity | lia | lia].
Defined.

(* ================================================================== *)
(** * The scalar functors on a range that need not be sorted *)

Section Unsorted.
Variable s : State.
Variables first last value : Z.
Hypothesis Hvalid : valid_range s first last = true.

Local Abbreviation stored := (valid_range_in s first last _ Hvalid).











End Unsorted.





(* ================================================================== *)
(** * Further properties of the branchless functors *)

Lemma bind_silent {A B} (m : M A) (f : A -> M B) (s : State) (a : A) :
  m s = mkRun (Ok a) s [] -> bind m f s = f a s.
Proof.
  intro H. unfold bind. rewrite H. cbn. destruct (f a s). reflexivity.
Qed.

Lemma bind_then_ret {A B} (m : M A) (g : A -> B) (s : State) (a : A)
      (l : list Z) :
  m s = mkRun (Ok a) s l ->
  bind m (fun x => ret (g x)) s = mkRun (Ok (g a)) s l.
Proof.
  intro H. unfold bind. rewrite H. cbn. rewrite app_nil_r. reflexivity.
Qed.

Lemma bind_deref_in {B} (s : State) (i : Z) (f : Z -> M B) :
  in_storage s i ->
  bind (deref i) f s
  = mkRun (result (f (elt s i) s)) (final (f (elt s i) s))
      (i :: reads (f (elt s i) s)).
Proof.
  intro H. unfold bind. rewrite (deref_in s i H). reflexivity.
Qed.

Lemma pow2_succ_nat (k : nat) :
  2 ^ Z.of_nat (S k) = 2 * 2 ^ Z.of_nat k /\ 0 < 2 ^ Z.of_nat k.
Proof.
  split.
  - rewrite Nat2Z.inj_succ, Z.pow_succ_r by lia. reflexivity.
  - apply Z.pow_pos_nonneg; lia.
Qed.

(** The descent from the step [2^k]: it probes the offsets [2^k], ..., [1]
    and adds to [pos] the steps whose probe is less than [value]. *)
Lemma descent_power (s : State) (first value : Z) (k : nat) :
  forall (fuel : nat) (pos : Z),
    (k + 1 < fuel)%nat ->
    (forall j, (j <= k)%nat -> in_storage s (first + 2 ^ Z.of_nat j)) ->
    -1 <= pos -> pos + 2 * 2 ^ Z.of_nat k <= 2 ^ 63 ->
    descent fuel first (2 ^ Z.of_nat k) pos value s
    = mkRun (Ok (pos + power_sum s first value k)) s (power_probes first k).
Proof.
  induction k as [|k IH]; intros fuel pos Hf Hin Hpos Hmax.
  - destruct fuel as [|[|fuel]]; try lia.
    rewrite descent_unfold. change (2 ^ Z.of_nat 0) with 1 in *.
    change (1 >? 0) with true. cbv iota.
    rewrite bind_deref_in by (apply (Hin 0%nat); lia).
    change (Z.shiftr 1 1) with 0. rewrite descent_unfold.
    change (0 >? 0) with false. cbn [ret result final reads power_sum
      power_probes]. change (2 ^ Z.of_nat 0) with 1.
    destruct (elt s (first + 1) <? value).
    + rewrite intptr_t_small by lia. f_equal; f_equal; lia.
    + f_equal; f_equal; lia.
  - destruct fuel as [|fuel]; [lia|].
    destruct (pow2_succ_nat k) as (Hd & Hp).
    rewrite descent_unfold.
    replace (2 ^ Z.of_nat (S k) >? 0) with true
      by (symmetry; rewrite Z.gtb_ltb; apply Z.ltb_lt; lia).
    rewrite bind_deref_in by (apply (Hin (S k)); lia).
    replace (Z.shiftr (2 ^ Z.of_nat (S k)) 1) with (2 ^ Z.of_nat k).
    2:{ rewrite Z.shiftr_div_pow2 by lia. change (2 ^ 1) with 2.
        rewrite Hd. symmetry. rewrite Z.mul_comm. apply Z.div_mul. lia. }
    cbn [power_sum power_probes].
    destruct (elt s (first + 2 ^ Z.of_nat (S k)) <? value).
    + rewrite intptr_t_small by lia.
      rewrite IH; try lia.
      * cbn [result final reads]. f_equal; f_equal; lia.
      * intros j Hj. apply Hin. lia.
    + rewrite IH; try lia.
      * cbn [result final reads]. f_equal; f_equal; lia.
      * intros j Hj. apply Hin. lia.
Qed.

(** The body of the branchless functors on a length [n]. *)
Lemma branchless_body_power_sum (s : State) (first n value : Z) :
  0 <= first -> 0 < n < 2 ^ 63 ->
  MINUS_ONE s = -1 ->
  in_storage s (first + 2 ^ Z.log2 n) ->
  branchless_body first n value s
  = mkRun (Ok (first + power_sum s first value (Z.to_nat (Z.log2 n)))) s
      (power_probes first (Z.to_nat (Z.log2 n))).
Proof.
  intros Hfirst Hn Hm1 Hin. set (k := Z.to_nat (Z.log2 n)).
  unfold branchless_body.
  destruct (bsr_highest_bit n ltac:(lia)) as (kz & Hbsr & Hkz & Hpow).
  assert (Hlog : Z.log2 n = kz) by (apply Z.log2_unique; lia).
  assert (Hk : Z.of_nat k = kz) by (subst k; lia).
  assert (Hk63 : kz < 63) by (apply (Z.pow_lt_mono_r_iff 2); lia).
  destruct (pow2_double kz ltac:(lia)) as (Hd & Hp).
  rewrite (bind_silent _ _ s (MINUS_ONE s)) by reflexivity.
  rewrite Hbsr. cbn [lift].
  rewrite (bind_silent _ _ s kz) by reflexivity.
  rewrite (bind_silent _ _ s (2 ^ kz)) by (apply shl_one; lia).
  rewrite (bind_then_ret _ (fun pos => first + (pos + 1)) s
             (MINUS_ONE s + power_sum s first value k)
             (power_probes first k)).
  - rewrite Hm1. f_equal; f_equal; lia.
  - rewrite <- Hk. apply descent_power; try lia.
    + intros j Hj.
      assert (Hle : 2 ^ Z.of_nat j <= 2 ^ kz)
        by (apply Z.pow_le_mono_r; lia).
      assert (0 < 2 ^ Z.of_nat j) by (apply Z.pow_pos_nonneg; lia).
      rewrite Hlog in Hin. unfold in_storage in *. lia.
    + rewrite Hk.
      assert (2 ^ (kz + 1) <= 2 ^ 63) by (apply Z.pow_le_mono_r; lia).
      lia.
Qed.

(** X7: what [BinarySearch_Branchless] computes.  On a non-empty range of
    length [n] whose probe at offset [2^k], [k] the index of the highest
    set bit of [n], lies in the storage, the functor reads exactly the
    elements at the offsets [2^k], [2^(k-1)], ..., [1] from [first] (never
    the element at [first]) and returns [first] plus the sum of those
    powers of two whose element is less than the query. *)
Theorem X7_BinarySearch_Branchless_power_sum
        (s : State) (first last pred value : Z) :
  valid_range s first last = true ->
  first < last ->
  MINUS_ONE s = -1 ->
  in_storage s (first + 2 ^ Z.log2 (last - first)) ->
  let k := Z.to_nat (Z.log2 (last - first)) in
  BinarySearch_Branchless first last pred value s
  = mkRun (Ok (first + power_sum s first value k)) s (power_probes first k).
Proof.
  intros Hv Hne Hm1 Hin k.
  pose proof (valid_range_bounds s first last Hv) as Hb.
  unfold BinarySearch_Branchless. cbv zeta.
  rewrite size_t_small by lia.
  apply branchless_body_power_sum; try assumption; lia.
Qed.

Lemma X7_witness :
  BinarySearch_Branchless 0 5 0 9 (init_state [1; 2; 3; 4; 5; 6; 7; 8])
  = mkRun (Ok 7) (init_state [1; 2; 3; 4; 5; 6; 7; 8]) [4; 2; 1].
Proof.
  apply (X7_BinarySearch_Branchless_power_sum
           (init_state [1; 2; 3; 4; 5; 6; 7; 8]) 0 5 0 9);
    [reflexivity | lia | reflexivity | vm_compute; split; congruence].
Defined.

(** X8: when the length of the range is a power of two, the first element
    [BinarySearch_Branchless] reads is the one at [last], one past the
    range. *)
Theorem X8_power_of_two_length_reads_last
        (s : State) (first pred value k : Z) :
  0 <= k < 63 ->
  exists tl,
    reads (BinarySearch_Branchless first (first + 2 ^ k) pred value s)
    = (first + 2 ^ k) :: tl.
Proof. apply branchless_power_of_two_probe. Qed.

Lemma X8_witness :
  exists tl,
    reads (BinarySearch_Branchless 0 (0 + 2 ^ 2) 0 5 scenario)
    = (0 + 2 ^ 2) :: tl.
Proof. apply (X8_power_of_two_length_reads_last scenario 0 0 5 2). lia. Defined.

(** X9: the branchless functors on an empty range.  With [first == last]
    [BinarySearch_Branchless] shifts by [bsr(0) = -1], which is undefined,
    before it reads anything; and so does
    [ModelBiasedBinarySearch_Branchless] when the predicted position is
    [first] and the element there is not less than the query, because the
    half-range it chooses is the empty [[first, first)]. *)
Theorem X9_branchless_empty_range (s : State) (first last pred value : Z) :
  BinarySearch_Branchless first first pred value s = mkRun UB s []
  /\ (in_storage s first -> value <= elt s first ->
      ModelBiasedBinarySearch_Branchless first last first value s
      = mkRun UB s [first]).
Proof.
  assert (H : branchless_body first (size_t (first - first)) value s
              = mkRun UB s []).
  { rewrite Z.sub_diag. reflexivity. }
  split.
  - exact H.
  - intros Hin Hge. unfold ModelBiasedBinarySearch_Branchless.
    rewrite bind_deref_in by assumption.
    replace (elt s first <? value) with false
      by (symmetry; apply Z.ltb_ge; assumption).
    cbv zeta. rewrite H. reflexivity.
Qed.

Lemma X9_witness :
  ModelBiasedBinarySearch_Branchless 0 7 0 1 scenario = mkRun UB scenario [0].
Proof.
  apply (X9_branchless_empty_range scenario 0 7 0 1);
    [vm_compute; split; congruence | vm_compute; congruence].
Defined.

(** X10: what [ModelBiasedBinarySearch_Branchless] computes.  It reads the
    element at the predicted position and takes the length [n] of the
    half-range from it ([last - pred] when that element is less than the
    query, [pred - first] otherwise); whichever half it chose, it then
    reads the elements at the offsets [2^k], ..., [1] from [first], [k] the
    index of the highest set bit of [n], and returns [first] plus the sum of
    the powers of two whose element is less than the query. *)
Theorem X10_ModelBiasedBinarySearch_Branchless_power_sum
        (s : State) (first last pred value : Z) :
  valid_range s first last = true ->
  first <= pred < last ->
  MINUS_ONE s = -1 ->
  (elt s pred < value ->
   in_storage s (first + 2 ^ Z.log2 (last - pred)) ->
   let k := Z.to_nat (Z.log2 (last - pred)) in
   ModelBiasedBinarySearch_Branchless first last pred value s
   = mkRun (Ok (first + power_sum s first value k)) s
       (pred :: power_probes first k))
  /\ (value <= elt s pred -> first < pred ->
      let k := Z.to_nat (Z.log2 (pred - first)) in
      ModelBiasedBinarySearch_Branchless first last pred value s
      = mkRun (Ok (first + power_sum s first value k)) s
          (pred :: power_probes first k)).
Proof.
  intros Hv Hp Hm1.
  pose proof (valid_range_bounds s first last Hv) as Hb.
  assert (Hin : in_storage s pred)
    by (apply (valid_range_in s first last _ Hv Hp)).
  split.
  - intros Hlt Hprobe k. unfold ModelBiasedBinarySearch_Branchless.
    rewrite bind_deref_in by assumption.
    replace (elt s pred <? value) with true
      by (symmetry; apply Z.ltb_lt; assumption).
    cbv zeta. rewrite size_t_small by lia.
    rewrite branchless_body_power_sum by (assumption || lia).
    reflexivity.
  - intros Hge Hfp k. unfold ModelBiasedBinarySearch_Branchless.
    rewrite bind_deref_in by assumption.
    replace (elt s pred <? value) with false
      by (symmetry; apply Z.ltb_ge; assumption).
    cbv zeta. rewrite size_t_small by lia.
    rewrite branchless_body_power_sum; try assumption; try lia.
    + reflexivity.
    + pose proof (Z.log2_spec (pred - first) ltac:(lia)) as Hl.
      unfold in_storage. lia.
Qed.

Lemma X10_witness :
  ModelBiasedBinarySearch_Branchless 0 7 4 3 scenario
  = mkRun (Ok 0) scenario [4; 4; 2; 1].
Proof.
  apply (X10_ModelBiasedBinarySearch_Branchless_power_sum scenario 0 7 4 3);
    [reflexivity | lia | reflexivity | vm_compute; congruence | lia].
Defined.

(* ================================================================== *)
(** * Further properties of the vectorised functors *)

Lemma skipn_nth_cons {A} (l : list A) (n : nat) (d : A) :
  (n < length l)%nat -> skipn n l = nth n l d :: skipn (S n) l.
Proof.
  revert n. induction l as [|x l IH]; intros n Hn; [cbn in Hn; lia|].
  destruct n; [reflexivity|]. cbn [skipn nth]. cbn [skipn] in IH.
  rewrite (IH n) by (cbn in Hn; lia). destruct l; reflexivity.
Qed.

Lemma range_empty (s : State) (p : Z) : range s p p = [].
Proof. unfold range. rewrite Z.sub_diag. reflexivity. Qed.

Lemma range_cons (s : State) (p hi : Z) :
  0 <= p < hi -> p < Z.of_nat (length (heap s)) ->
  range s p hi = elt s p :: range s (p + 1) hi.
Proof.
  intros Hp Hl. unfold range, elt.
  rewrite (skipn_nth_cons (heap s) (Z.to_nat p) 0) by lia.
  replace (Z.to_nat (hi - p)) with (S (Z.to_nat (hi - (p + 1)))) by lia.
  replace (Z.to_nat (p + 1)) with (S (Z.to_nat p)) by lia.
  reflexivity.
Qed.

Lemma range_split (s : State) (lo mid hi : Z) :
  0 <= lo <= mid -> mid <= hi -> hi <= Z.of_nat (length (heap s)) ->
  range s lo hi = range s lo mid ++ range s mid hi.
Proof.
  intros Hlo Hmid Hhi.
  remember (Z.to_nat (mid - lo)) as k eqn:Hk.
  revert lo Hlo Hk. induction k as [|k IH]; intros lo Hlo Hk.
  - replace mid with lo by lia. rewrite range_empty. reflexivity.
  - rewrite (range_cons s lo hi), (range_cons s lo mid) by lia.
    rewrite (IH (lo + 1)) by lia. reflexivity.
Qed.

Lemma load_lanes_in (s : State) (k : nat) :
  forall p,
    0 <= p -> p + Z.of_nat k <= Z.of_nat (length (heap s)) ->
    load_lanes k p s
    = mkRun (Ok (map size_t (range s p (p + Z.of_nat k)))) s (upto p k).
Proof.
  induction k as [|k IH]; intros p Hp Hl.
  - cbn [load_lanes Z.of_nat]. rewrite Z.add_0_r, range_empty. reflexivity.
  - cbn [load_lanes]. rewrite bind_deref_in by (unfold in_storage; lia).
    cbv beta.
    pose proof (bind_then_ret _ (fun v => size_t (elt s p) :: v) s _ _
                  (IH (p + 1) ltac:(lia) ltac:(lia))) as Hrest.
    cbv beta in Hrest. unfold m512i in *. rewrite Hrest.
    cbn [result final reads upto].
    rewrite (range_cons s p (p + Z.of_nat (S k))) by lia.
    replace (p + 1 + Z.of_nat k) with (p + Z.of_nat (S k)) by lia.
    reflexivity.
Qed.

Lemma load_lanes_overrun (s : State) (k : nat) :
  forall p,
    0 <= p <= Z.of_nat (length (heap s)) ->
    Z.of_nat (length (heap s)) < p + Z.of_nat k ->
    result (load_lanes k p s) = UB.
Proof.
  induction k as [|k IH]; intros p Hp Hl; [lia|].
  cbn [load_lanes].
  destruct (Z.eq_dec p (Z.of_nat (length (heap s)))) as [Heq|Hne].
  - unfold bind, deref. cbn [result].
    destruct (p <? 0) eqn:E; [reflexivity|].
    rewrite (proj2 (nth_error_None (heap s) (Z.to_nat p))) by lia.
    reflexivity.
  - rewrite result_bind_deref by (unfold in_storage; lia).
    unfold bind. rewrite (IH (p + 1)) by lia. reflexivity.
Qed.

Lemma cmplt_mask_scale (a : m512i) :
  forall (b : m512i) (bit : Z),
    cmplt_mask a b bit = bit * cmplt_mask a b 1 /\ 0 <= cmplt_mask a b 1.
Proof.
  induction a as [|x a IH]; intros b bit; [cbn; lia|].
  destruct b as [|y b]; [cbn; lia|].
  cbn [cmplt_mask].
  destruct (IH b (2 * bit)) as (H2 & Hn). destruct (IH b (2 * 1)) as (H1 & _).
  rewrite H2, H1. destruct (epi64 x <? epi64 y); lia.
Qed.

(** The mask of a block against the broadcast pattern, and its trailing
    zeros, in terms of the first lane that is less than the pattern. *)
Lemma cmplt_mask_find (q : Z) (l : list Z) :
  forall m : nat,
    (length l <= m)%nat ->
    match find_less q l with
    | None => cmplt_mask (map size_t l) (repeat q m) 1 = 0
    | Some j =>
        exists p, cmplt_mask (map size_t l) (repeat q m) 1 = Zpos p
                  /\ ctz_pos p = j
    end.
Proof.
  induction l as [|x t IH]; intros m Hm; [reflexivity|].
  destruct m as [|m]; [cbn in Hm; lia|].
  cbn [map repeat cmplt_mask find_less].
  destruct (cmplt_mask_scale (map size_t t) (repeat q m) (2 * 1))
    as (Hs & Hn).
  rewrite Hs. specialize (IH m ltac:(cbn in Hm; lia)).
  destruct (epi64 (size_t x) <? epi64 q).
  - destruct (cmplt_mask (map size_t t) (repeat q m) 1) as [|p|p];
      try lia.
    + exists 1%positive. split; reflexivity.
    + exists (p~1)%positive. split; reflexivity.
  - destruct (find_less q t) as [j|].
    + destruct IH as (p & Hp & Hj). rewrite Hp.
      exists (p~0)%positive. split; [reflexivity|]. cbn [ctz_pos]. lia.
    + rewrite IH. reflexivity.
Qed.

Lemma find_less_app (q : Z) (l l' : list Z) :
  find_less q (l ++ l')
  = match find_less q l with
    | Some j => Some j
    | None => match find_less q l' with
              | Some j => Some (Z.of_nat (length l) + j)
              | None => None
              end
    end.
Proof.
  induction l as [|x l IH]; cbn [app find_less length].
  - destruct (find_less q l'); reflexivity.
  - destruct (epi64 (size_t x) <? epi64 q); [reflexivity|].
    rewrite IH. destruct (find_less q l) as [j|]; [reflexivity|].
    destruct (find_less q l') as [j|]; [|reflexivity].
    f_equal. lia.
Qed.

Lemma within_upto (lo hi p : Z) (k : nat) :
  lo <= p -> p + Z.of_nat k <= hi -> within lo hi (upto p k).
Proof.
  revert p. induction k as [|k IH]; intros p Hlo Hhi; [constructor|].
  cbn [upto]. constructor; [lia|]. apply IH; lia.
Qed.

Lemma within_widen (lo hi lo' hi' : Z) (l : list Z) :
  lo' <= lo -> hi <= hi' -> within lo hi l -> within lo' hi' l.
Proof.
  intros Hlo Hhi Hl. unfold within in *.
  rewrite Forall_forall in *. intros p Hp. specialize (Hl p Hp). lia.
Qed.

Lemma block_length (s : State) (p : Z) :
  0 <= p -> p + 8 <= Z.of_nat (length (heap s)) ->
  length (range s p (p + 8)) = 8%nat.
Proof.
  intros Hp Hl. unfold range. rewrite length_firstn, length_skipn. lia.
Qed.

(** One turn of the block loop: the block of eight elements at [data + i]
    is loaded; the loop returns at the first of them that is less than the
    pattern, and goes on to the next block when there is none. *)
Lemma simd_loop_block (s : State) (data q first last : Z) (fuel : nat)
      (i n : Z) :
  i < n -> 0 <= data + i ->
  data + i + 8 <= Z.of_nat (length (heap s)) ->
  let block := range s (data + i) (data + i + 8) in
  let rest := simd_loop fuel data (repeat q 8) (size_t (i + 8)) n first last in
  result (simd_loop (S fuel) data (repeat q 8) i n first last s)
  = match find_less q block with
    | Some j => Ok (first + i + j)
    | None => result (rest s)
    end
  /\ reads (simd_loop (S fuel) data (repeat q 8) i n first last s)
     = upto (data + i) 8
       ++ match find_less q block with
          | Some j => []
          | None => reads (rest s)
          end.
Proof.
  intros Hi Hd Hl. cbv zeta. cbn [simd_loop].
  replace (i <? n) with true by (symmetry; apply Z.ltb_lt; assumption).
  unfold mm512_loadu_si512.
  pose proof (load_lanes_in s 8 (data + i) Hd ltac:(lia)) as Hload.
  change (Z.of_nat 8) with 8 in Hload.
  assert (Hload_r : result (load_lanes 8 (data + i) s)
                    = Ok (map size_t (range s (data + i) (data + i + 8))))
    by (rewrite Hload; reflexivity).
  assert (Hload_f : final (load_lanes 8 (data + i) s) = s)
    by (rewrite Hload; reflexivity).
  rewrite (result_bind _ _ s _ Hload_r Hload_f).
  rewrite (reads_bind _ _ s _ Hload_r Hload_f).
  replace (reads (load_lanes 8 (data + i) s)) with (upto (data + i) 8)
    by (rewrite Hload; reflexivity).
  unfold mm512_cmplt_epi64_mask.
  pose proof (cmplt_mask_find q (range s (data + i) (data + i + 8)) 8)
    as Hmask.
  rewrite (block_length s (data + i)) in Hmask by lia.
  specialize (Hmask ltac:(lia)).
  destruct (find_less q (range s (data + i) (data + i + 8))) as [j|].
  - destruct Hmask as (p & -> & Hj). cbn [Z.eqb negb builtin_ctz].
    subst j. split; reflexivity.
  - rewrite Hmask. cbn [Z.eqb negb]. split; reflexivity.
Qed.

(** The block loop over a whole number [m] of blocks. *)
Lemma simd_loop_blocks (s : State) (data q first last : Z) (m : nat) :
  forall (fuel : nat) (i n : Z),
    n = i + 8 * Z.of_nat m -> (m < fuel)%nat ->
    0 <= i -> 0 <= data ->
    data + n <= Z.of_nat (length (heap s)) -> n < 2 ^ 64 ->
    result (simd_loop fuel data (repeat q 8) i n first last s)
    = Ok (match find_less q (range s (data + i) (data + n)) with
          | Some j => first + i + j
          | None => last
          end)
    /\ within (data + i) (data + n)
         (reads (simd_loop fuel data (repeat q 8) i n first last s)).
Proof.
  induction m as [|m IH]; intros fuel i n Hn Hf Hi Hd Hl Hmax;
    (destruct fuel as [|fuel]; [lia|]).
  - replace n with i by lia. rewrite range_empty. cbn [simd_loop].
    rewrite Z.ltb_irrefl. split; [reflexivity|constructor].
  - destruct (simd_loop_block s data q first last fuel i n)
      as (Hres & Hreads); try lia.
    rewrite Hres, Hreads.
    rewrite (range_split s (data + i) (data + i + 8) (data + n)) by lia.
    rewrite find_less_app, (block_length s (data + i)) by lia.
    destruct (find_less q (range s (data + i) (data + i + 8))) as [j|].
    + split; [reflexivity|]. rewrite app_nil_r.
      apply within_upto; lia.
    + rewrite size_t_small by lia.
      destruct (IH fuel (i + 8) n) as (Hr' & Hw'); try lia.
      replace (data + (i + 8)) with (data + i + 8) in * by lia.
      rewrite Hr'. split.
      * destruct (find_less q (range s (data + i + 8) (data + n)));
          [|reflexivity].
        f_equal. change (Z.of_nat 8) with 8. lia.
      * apply Forall_app. split.
        -- apply within_upto; lia.
        -- apply (within_widen (data + i + 8) (data + n)); try lia.
           assumption.
Qed.

(** X11: what [LinearSearch_SIMD] computes on a range whose length is a
    multiple of eight: it returns the first position whose element, taken
    as a signed 64-bit lane, is LESS than the pattern that
    [_mm512_set1_epi32] broadcasts (the low 32 bits of the query, twice),
    or [last] when there is no such element; and it reads only elements of
    the range. *)
Theorem X11_LinearSearch_SIMD_whole_blocks
        (s : State) (first last pred value : Z) :
  valid_range s first last = true ->
  (last - first) mod 8 = 0 ->
  result (LinearSearch_SIMD first last pred value s)
  = Ok (match find_less (broadcast value) (range s first last) with
        | Some j => first + j
        | None => last
        end)
  /\ within first last (reads (LinearSearch_SIMD first last pred value s)).
Proof.
  intros Hv Hmod. pose proof (valid_range_bounds s first last Hv) as Hb.
  unfold LinearSearch_SIMD. cbv zeta.
  change (mm512_set1_epi32 value) with (repeat (broadcast value) 8).
  rewrite size_t_small by lia.
  pose proof (Z.div_mod (last - first) 8 ltac:(lia)) as Hdiv.
  assert (Hq : 0 <= (last - first) / 8) by (apply Z.div_pos; lia).
  destruct (simd_loop_blocks s first (broadcast value) first last
              (Z.to_nat ((last - first) / 8))
              (S (Z.to_nat (last - first))) 0 (last - first))
    as (Hres & Hw); try lia.
  rewrite Hres.
  replace (first + 0) with first in * by lia.
  replace (first + (last - first)) with last in * by lia.
  split; [|assumption].
  destruct (find_less (broadcast value) (range s first last));
    f_equal; lia.
Qed.

Lemma X11_witness :
  result (LinearSearch_SIMD 0 8 0 5 eight)
  = Ok (match find_less (broadcast 5) (range eight 0 8) with
        | Some j => 0 + j
        | None => 8
        end)
  /\ within 0 8 (reads (LinearSearch_SIMD 0 8 0 5 eight)).
Proof.
  apply (X11_LinearSearch_SIMD_whole_blocks eight 0 8 0 5); reflexivity.
Defined.

(** X12: [LinearSearch_SIMD] always loads a full block of eight elements.
    On a non-empty range that starts fewer than eight elements before the
    end of the storage, the load runs past the storage and the behaviour
    is undefined, whatever the query. *)
Theorem X12_LinearSearch_SIMD_short_range
        (s : State) (first last pred value : Z) :
  valid_range s first last = true ->
  first < last ->
  Z.of_nat (length (heap s)) < first + 8 ->
  result (LinearSearch_SIMD first last pred value s) = UB.
Proof.
  intros Hv Hne Hshort. pose proof (valid_range_bounds s first last Hv) as Hb.
  unfold LinearSearch_SIMD. cbv zeta. rewrite size_t_small by lia.
  cbn [simd_loop].
  replace (0 <? last - first) with true by (symmetry; apply Z.ltb_lt; lia).
  unfold mm512_loadu_si512, bind.
  rewrite (load_lanes_overrun s 8 (first + 0)) by lia.
  reflexivity.
Qed.

Lemma X12_witness : result (LinearSearch_SIMD 0 7 0 5 scenario) = UB.
Proof.
  apply (X12_LinearSearch_SIMD_short_range scenario 0 7 0 5);
    [reflexivity | lia | vm_compute; reflexivity].
Defined.

(** X13: what [ModelBiasedLinearSearch_SIMD] computes when the half-range
    it chooses is a whole number of blocks.  To the right of the predicted
    position it looks for the first element of [[pred, last)] that is less
    than the broadcast pattern, at index [j] counted from [pred], and
    returns [first + j]; to the left it returns the first position of
    [[first, pred)] whose element is less than the pattern; in both cases
    it returns [last] when the half-range has no such element. *)
Theorem X13_ModelBiasedLinearSearch_SIMD_whole_blocks
        (s : State) (first last pred value : Z) :
  valid_range s first last = true ->
  first <= pred < last ->
  (elt s pred < value -> (last - pred) mod 8 = 0 ->
   result (ModelBiasedLinearSearch_SIMD first last pred value s)
   = Ok (match find_less (broadcast value) (range s pred last) with
         | Some j => first + j
         | None => last
         end))
  /\ (value <= elt s pred -> (pred - first) mod 8 = 0 ->
      result (ModelBiasedLinearSearch_SIMD first last pred value s)
      = Ok (match find_less (broadcast value) (range s first pred) with
            | Some j => first + j
            | None => last
            end)).
Proof.
  intros Hv Hp. pose proof (valid_range_bounds s first last Hv) as Hb.
  assert (Hin : in_storage s pred)
    by (apply (valid_range_in s first last _ Hv Hp)).
  split.
  - intros Hlt Hmod. unfold ModelBiasedLinearSearch_SIMD. cbv zeta.
    rewrite result_bind_deref by assumption.
    replace (elt s pred <? value) with true
      by (symmetry; apply Z.ltb_lt; assumption).
    change (mm512_set1_epi32 value) with (repeat (broadcast value) 8).
    rewrite size_t_small by lia.
    pose proof (Z.div_mod (last - pred) 8 ltac:(lia)) as Hdiv.
    assert (Hq : 0 <= (last - pred) / 8) by (apply Z.div_pos; lia).
    destruct (simd_loop_blocks s pred (broadcast value) first last
                (Z.to_nat ((last - pred) / 8))
                (S (Z.to_nat (last - pred))) 0 (last - pred))
      as (Hres & _); try lia.
    rewrite Hres.
    replace (pred + 0) with pred by lia.
    replace (pred + (last - pred)) with last by lia.
    destruct (find_less (broadcast value) (range s pred last));
      f_equal; lia.
  - intros Hge Hmod. unfold ModelBiasedLinearSearch_SIMD. cbv zeta.
    rewrite result_bind_deref by assumption.
    replace (elt s pred <? value) with false
      by (symmetry; apply Z.ltb_ge; assumption).
    change (mm512_set1_epi32 value) with (repeat (broadcast value) 8).
    rewrite size_t_small by lia.
    pose proof (Z.div_mod (pred - first) 8 ltac:(lia)) as Hdiv.
    assert (Hq : 0 <= (pred - first) / 8) by (apply Z.div_pos; lia).
    destruct (simd_loop_blocks s first (broadcast value) first last
                (Z.to_nat ((pred - first) / 8))
                (S (Z.to_nat (pred - first))) 0 (pred - first))
      as (Hres & _); try lia.
    rewrite Hres.
    replace (first + 0) with first by lia.
    replace (first + (pred - first)) with pred by lia.
    destruct (find_less (broadcast value) (range s first pred));
      f_equal; lia.
Qed.

Lemma X13_witness :
  (elt sixteen 8 < 100
   /\ find_less (broadcast 100) (range sixteen 8 16) = Some 0
   /\ result (ModelBiasedLinearSearch_SIMD 0 16 8 100 sixteen) = Ok (0 + 0)
   /\ reads (ModelBiasedLinearSearch_SIMD 0 16 8 100 sixteen)
      = [8; 8; 9; 10; 11; 12; 13; 14; 15])
  /\ (5 <= elt sixteen 8
      /\ find_less (broadcast 5) (range sixteen 0 8) = Some 0
      /\ result (ModelBiasedLinearSearch_SIMD 0 16 8 5 sixteen) = Ok (0 + 0)
      /\ reads (ModelBiasedLinearSearch_SIMD 0 16 8 5 sixteen)
         = [8; 0; 1; 2; 3; 4; 5; 6; 7]).
Proof.
  split.
  - split; [vm_compute; reflexivity|]. split; [reflexivity|].
    split; [|reflexivity].
    apply (proj1 (X13_ModelBiasedLinearSearch_SIMD_whole_blocks
                    sixteen 0 16 8 100 eq_refl ltac:(lia)));
      [vm_compute; reflexivity | reflexivity].
  - split; [vm_compute; congruence|]. split; [reflexivity|].
    split; [|reflexivity].
    apply (proj2 (X13_ModelBiasedLinearSearch_SIMD_whole_blocks
                    sixteen 0 16 8 5 eq_refl ltac:(lia)));
      [vm_compute; congruence | reflexivity].
Defined.

Lemma epi64_signed (x : Z) :
  - 2 ^ 63 <= x < 2 ^ 63 -> epi64 (size_t x) = x.
Proof.
  intro Hx. unfold epi64, intptr_t, size_t. rewrite Z.mod_mod by lia.
  destruct (Z_lt_le_dec x 0) as [Hneg|Hpos].
  - replace (x mod 2 ^ 64) with (x + 2 ^ 64).
    + destruct (x + 2 ^ 64 <? 2 ^ 63) eqn:E; zbool; lia.
    + symmetry. rewrite <- (Z.mod_add x 1 (2 ^ 64)) by lia.
      apply Z.mod_small. lia.
  - rewrite Z.mod_small by lia.
    destruct (x <? 2 ^ 63) eqn:E; zbool; lia.
Qed.

Lemma broadcast_small (value : Z) :
  0 <= value < 2 ^ 31 ->
  value <= broadcast value /\ epi64 (broadcast value) = broadcast value.
Proof.
  intro Hv. unfold broadcast. cbv zeta. rewrite Z.mod_small by lia.
  split; [lia|]. unfold epi64. apply intptr_t_small. lia.
Qed.

(** X14: whenever [ModelBiasedLinearSearch_SIMD] searches to the right of
    the predicted position (the element there is less than the query), the
    query is a non-negative 32-bit [int], the element a signed 64-bit
    integer and the block of eight at the predicted position lies in the
    storage, it returns [first]: the element at the predicted position is
    itself less than the broadcast pattern, and the index 0 of that lane is
    added to [first], not to the predicted position. *)
Theorem X14_ModelBiasedLinearSearch_SIMD_right_returns_first
        (s : State) (first last pred value : Z) :
  valid_range s first last = true ->
  first <= pred < last ->
  pred + 8 <= Z.of_nat (length (heap s)) ->
  0 <= value < 2 ^ 31 ->
  - 2 ^ 63 <= elt s pred ->
  elt s pred < value ->
  result (ModelBiasedLinearSearch_SIMD first last pred value s) = Ok first.
Proof.
  intros Hv Hp Hblock Hval Hmin Hlt.
  pose proof (valid_range_bounds s first last Hv) as Hb.
  destruct (broadcast_small value Hval) as (Hle & Hq).
  unfold ModelBiasedLinearSearch_SIMD. cbv zeta.
  rewrite result_bind_deref by (apply (valid_range_in s first last _ Hv Hp)).
  replace (elt s pred <? value) with true
    by (symmetry; apply Z.ltb_lt; assumption).
  change (mm512_set1_epi32 value) with (repeat (broadcast value) 8).
  rewrite size_t_small by lia.
  destruct (simd_loop_block s pred (broadcast value) first last
              (Z.to_nat (last - pred)) 0 (last - pred)) as (Hres & _);
    try lia.
  rewrite Hres.
  replace (pred + 0) with pred by lia.
  rewrite (range_cons s pred (pred + 8)) by lia.
  cbn [find_less]. rewrite epi64_signed, Hq by lia.
  replace (elt s pred <? broadcast value) with true
    by (symmetry; apply Z.ltb_lt; lia).
  f_equal. lia.
Qed.

Lemma X14_witness :
  result (ModelBiasedLinearSearch_SIMD 0 8 0 5 eight) = Ok 0.
Proof.
  apply (X14_ModelBiasedLinearSearch_SIMD_right_returns_first eight 0 8 0 5);
    [reflexivity | lia | vm_compute; congruence | lia
    | vm_compute; congruence | vm_compute; reflexivity].
Defined.

(* ================================================================== *)
(** * The number of elements a bisection reads *)



